(** * dlnap: the XML-to-dictionary parser, the path evaluator, device
      resolution, the SOAP client and the SSDP discovery loop of [dlnap.py],
      embedded in Rocq and checked against the properties stated for them. *)

From Stdlib Require Import ZArith Lia DecimalString Ascii.
From stdpp Require Import gmap list fin_maps strings.
From Equations Require Import Equations.

(** Python [str] values are sequences of code points; the development keeps
    the code points below 256, one [ascii] each. *)
Abbreviation str := (list ascii).
Definition lit (s : string) : str := String.list_ascii_of_string s.
Notation "$ s" := (lit s) (at level 1, s at level 0, format "$ s").

(** ** The string methods of Python that [dlnap.py] calls *)
Module Py.

(** [str.isspace] on one character (code points below 256). *)
Definition isspace (c : ascii) : bool :=
  let n := nat_of_ascii c in
  ((9 <=? n) && (n <=? 13)) || ((28 <=? n) && (n <=? 32))
  || (n =? 133) || (n =? 160).

Fixpoint lstrip (l : str) : str :=
  match l with
  | [] => []
  | c :: l' => if isspace c then lstrip l' else l
  end.

Definition rstrip (l : str) : str := rev (lstrip (rev l)).

(** [x.strip()] *)
Definition strip (l : str) : str := rstrip (lstrip l).

(** [x.startswith(p)] *)
Fixpoint startswith (l p : str) {struct p} : bool :=
  match p, l with
  | [], _ => true
  | _ :: _, [] => false
  | c :: p', d :: l' => Ascii.eqb c d && startswith l' p'
  end.

(** [x.endswith(p)] *)
Definition endswith (l p : str) : bool := startswith (rev l) (rev p).

(** [x[:-k]] for a positive [k]. *)
Definition drop_last (k : nat) (l : str) : str := take (length l - k) l.

(** [x.replace(old, new)]: non-overlapping occurrences, left to right.
    The fuel is the length of the text, one unit per step. *)
Fixpoint replace_go (fuel : nat) (old new l : str) : str :=
  match fuel with
  | O => l
  | S fuel' =>
      if startswith l old
      then new ++ replace_go fuel' old new (drop (length old) l)
      else match l with
           | [] => []
           | c :: l' => c :: replace_go fuel' old new l'
           end
  end.

Definition replace (l old new : str) : str :=
  match old with
  | [] => new ++ concat (map (fun c => c :: new) l)
  | _ :: _ => replace_go (length l) old new l
  end.

(** [x.split(sep)] for a one-character separator. *)
Fixpoint split (sep : ascii) (l : str) : list str :=
  match l with
  | [] => [[]]
  | c :: l' =>
      if Ascii.eqb c sep then [] :: split sep l'
      else match split sep l' with
           | [] => [[c]]
           | w :: ws => (c :: w) :: ws
           end
  end.

(** [sub in x] on strings. *)
Fixpoint contains (l sub : str) : bool :=
  startswith l sub ||
  match l with
  | [] => false
  | _ :: l' => contains l' sub
  end.

(** [sep.join(parts)] *)
Fixpoint join (sep : str) (parts : list str) : str :=
  match parts with
  | [] => []
  | [p] => p
  | p :: ps => p ++ sep ++ join sep ps
  end.

(** [x.lower()] (code points below 256). *)
Definition lower_char (c : ascii) : ascii :=
  let n := nat_of_ascii c in
  if ((65 <=? n) && (n <=? 90))
     || ((192 <=? n) && (n <=? 222) && negb (n =? 215))
  then ascii_of_nat (n + 32) else c.

Definition lower (l : str) : str := map lower_char l.

(** [str(n)] for an integer. *)
Definition str_of_int (z : Z) : str :=
  lit (NilZero.string_of_int (Z.to_int z)).

End Py.

(** ** [_get_tag_value] *)

(** [while i < len(x) and x[i] != c: i += 1], counted on the text from [i]. *)
Fixpoint scan_to (c : ascii) (l : str) : nat :=
  match l with
  | [] => 0
  | a :: l' => if Ascii.eqb a c then 0 else S (scan_to c l')
  end.

(** The loop that reads a tag name up to the next [>], dropping what follows
    the first blank; it returns the name and the number of characters passed. *)
Fixpoint read_tag (l : str) (in_attr : bool) (tag : str) : str * nat :=
  match l with
  | [] => (tag, 0)
  | c :: l' =>
      if Ascii.eqb c ">" then (tag, 0)
      else
        let in_attr := if Ascii.eqb c " " then true else in_attr in
        let tag := if in_attr then tag else tag ++ [c] in
        let '(t, n) := read_tag l' in_attr tag in
        (t, S n)
  end.

(** The loop that collects the value up to the closing tag; it returns the
    value as it stands when the loop ends and the number of characters passed
    before the one the loop stopped at. *)
Fixpoint read_value (tag : str) (l : str) (value : str) : str * nat :=
  match l with
  | [] => (value, 0)
  | c :: l' =>
      let value := value ++ [c] in
      if Ascii.eqb c ">" && Py.endswith value ($"</" ++ tag ++ $">")
      then (Py.drop_last (length tag + 2) value, 0)
      else
        let '(v, n) := read_value tag l' value in
        (v, S n)
  end.

(** The block that skips a leading [<? >] declaration: the position of the
    next [<] after it (or the end of the text). *)
Definition skip_decl (x : str) (i : nat) : nat :=
  if Py.startswith (drop i x) $"<?"
  then (i + 2) + scan_to "<" (drop (i + 2) x)
  else i.

Definition _get_tag_value (x : str) (i : nat) : str * str * str :=
  let x := Py.strip x in
  (* skip <? > tag *)
  let i := skip_decl x i in
  (* check for empty tag like '</tag>' *)
  if Py.startswith (drop i x) $"</" then
    let '(tag, n) := read_tag (drop (i + 2) x) false [] in
    let i := i + 2 + n in
    (Py.strip tag, [], drop (i + 1) x)
  (* not an xml, treat like a value *)
  else if negb (Py.startswith (drop i x) $"<") then
    ([], drop i x, [])
  else
    let i := i + 1 in
    let '(tag, n) := read_tag (drop i x) false [] in
    let i := i + n in
    let i := i + 1 in
    (* replace self-closing <tag/> by <tag>None</tag> *)
    let empty_elmt := $"<" ++ tag ++ $" />" in
    let closed_elmt := $"<" ++ tag ++ $">None</" ++ tag ++ $">" in
    let x := if Py.startswith x empty_elmt
             then Py.replace x empty_elmt closed_elmt else x in
    let '(value, n) := read_value tag (drop i x) [] in
    let i := i + n in
    (Py.strip tag, Py.drop_last 1 value, drop (i + 1) x).

Example gtv_doc :
  _get_tag_value $"<d> <e>value4</e> </d>" 0 = ($"d", $" <e>value4</e> ", []).
Proof. vm_compute. reflexivity. Qed.

Example gtv_self_closing :
  _get_tag_value $"<a />" 0 = ($"a", $"ne", []).
Proof. vm_compute. reflexivity. Qed.

(** ** Termination of the parser

    Each round of [_xml2dict] continues on a text that has fewer blanks than
    the one it started from (a self-closing element was rewritten), or no more
    blanks and fewer characters. *)

Fixpoint spaces (l : str) : nat :=
  match l with
  | [] => 0
  | c :: l' => (if Ascii.eqb c " " then 1 else 0) + spaces l'
  end.

Definition smaller (a b : str) : Prop :=
  spaces a < spaces b \/ (spaces a <= spaces b /\ length a < length b).

Lemma smaller_acc (n m : nat) (s : str) :
  spaces s <= n -> length s <= m -> Acc smaller s.
Proof.
  revert m s. induction n as [n IHn] using lt_wf_ind.
  induction m as [m IHm] using lt_wf_ind.
  intros s Hn Hm. constructor. intros t [Hlt | [Hle Hlt]].
  - apply (IHn (spaces t) ltac:(lia) (length t)); lia.
  - apply (IHm (length t) ltac:(lia)); lia.
Qed.

Lemma smaller_well_founded : well_founded smaller.
Proof. intros s. apply (smaller_acc (spaces s) (length s)); lia. Qed.

#[export] Instance smaller_wf : WellFounded smaller :=
  wf_guard 64 smaller_well_founded.

Lemma spaces_app (a b : str) : spaces (a ++ b) = spaces a + spaces b.
Proof. induction a as [|c a IH]; simpl; [done | rewrite IH; lia]. Qed.

Lemma spaces_rev (a : str) : spaces (rev a) = spaces a.
Proof.
  induction a as [|c a IH]; simpl; [done |].
  rewrite spaces_app, IH. simpl. lia.
Qed.

Lemma spaces_drop (n : nat) (l : str) : spaces (drop n l) <= spaces l.
Proof.
  rewrite <- (take_drop n l) at 2. rewrite spaces_app. lia.
Qed.

Lemma spaces_take (n : nat) (l : str) : spaces (take n l) <= spaces l.
Proof.
  rewrite <- (take_drop n l) at 2. rewrite spaces_app. lia.
Qed.

Lemma spaces_lstrip (l : str) : spaces (Py.lstrip l) <= spaces l.
Proof.
  induction l as [|c l IH]; simpl; [done |].
  destruct (Py.isspace c); simpl; lia.
Qed.

Lemma length_lstrip (l : str) : length (Py.lstrip l) <= length l.
Proof.
  induction l as [|c l IH]; simpl; [done |].
  destruct (Py.isspace c); simpl; lia.
Qed.

Lemma spaces_strip (l : str) : spaces (Py.strip l) <= spaces l.
Proof.
  unfold Py.strip, Py.rstrip. rewrite spaces_rev.
  etrans; [apply spaces_lstrip |]. rewrite spaces_rev. apply spaces_lstrip.
Qed.

Lemma length_strip (l : str) : length (Py.strip l) <= length l.
Proof.
  unfold Py.strip, Py.rstrip. rewrite length_rev.
  etrans; [apply length_lstrip |]. rewrite length_rev. apply length_lstrip.
Qed.

Lemma spaces_drop_last (k : nat) (l : str) : spaces (Py.drop_last k l) <= spaces l.
Proof. apply spaces_take. Qed.

Lemma length_drop_last (k : nat) (l : str) : length (Py.drop_last k l) <= length l.
Proof. unfold Py.drop_last. rewrite length_take. lia. Qed.

Lemma startswith_app (l p : str) :
  Py.startswith l p = true -> l = p ++ drop (length p) l.
Proof.
  revert l. induction p as [|c p IH]; intros [|d l]; simpl; try done.
  intros [Hc Hp]%andb_prop. apply Ascii.eqb_eq in Hc as ->.
  f_equal. by apply IH.
Qed.

Lemma startswith_refl_app (p r : str) : Py.startswith (p ++ r) p = true.
Proof.
  induction p as [|c p IH]; simpl; [done |].
  by rewrite Ascii.eqb_refl, IH.
Qed.

Lemma read_tag_spaces (l : str) (b : bool) (t : str) :
  spaces (read_tag l b t).1 = spaces t.
Proof.
  revert b t. induction l as [|c l IH]; intros b t; simpl; [done |].
  destruct (Ascii.eqb c ">"); [done |].
  destruct (Ascii.eqb c " ") eqn:Hsp.
  - specialize (IH true t). destruct (read_tag l true t). simpl in *. done.
  - destruct b.
    + specialize (IH true t). destruct (read_tag l true t). done.
    + specialize (IH false (t ++ [c])). destruct (read_tag l false (t ++ [c])).
      simpl in *. rewrite IH, spaces_app. simpl. rewrite Hsp. lia.
Qed.

Lemma read_value_take (tag l v : str) :
  exists k, (read_value tag l v).1 = take k (v ++ l).
Proof.
  revert v. induction l as [|c l IH]; intros v; simpl.
  - exists (length v). by rewrite app_nil_r, firstn_all.
  - destruct (Ascii.eqb c ">" && Py.endswith (v ++ [c]) _).
    + simpl. unfold Py.drop_last.
      exists (length (v ++ [c]) - (length tag + 2)).
      rewrite (cons_middle c v l), app_assoc.
      symmetry. apply take_app_le. lia.
    + destruct (IH (v ++ [c])) as [k Hk].
      destruct (read_value tag l (v ++ [c])). simpl in *.
      exists k. by rewrite Hk, <- app_assoc.
Qed.

Lemma replace_go_spaces_le (fuel : nat) (old new l : str) :
  spaces new <= spaces old ->
  spaces (Py.replace_go fuel old new l) <= spaces l.
Proof.
  intros Hle. revert l. induction fuel as [|fuel IH]; intros l; simpl; [done |].
  destruct (Py.startswith l old) eqn:Hst.
  - apply startswith_app in Hst. rewrite Hst at 2.
    rewrite !spaces_app. specialize (IH (drop (length old) l)). lia.
  - destruct l as [|c l]; simpl; [done |]. specialize (IH l). lia.
Qed.

Lemma replace_spaces_lt (old new l : str) :
  spaces new < spaces old -> Py.startswith l old = true ->
  spaces (Py.replace l old new) < spaces l.
Proof.
  intros Hlt Hst. unfold Py.replace.
  destruct old as [|o old]; [simpl in Hlt; lia |].
  destruct l as [|c l]; [done |].
  cbn [length Py.replace_go]. rewrite Hst.
  apply startswith_app in Hst. rewrite Hst at 2.
  rewrite !spaces_app.
  pose proof (replace_go_spaces_le (length l) (o :: old) new
                (drop (length (o :: old)) (c :: l)) ltac:(lia)).
  cbn [length] in *. lia.
Qed.

Lemma strip_nil : Py.strip [] = [].
Proof. reflexivity. Qed.

Lemma lstrip_app_nonspace (a : str) (c : ascii) :
  Py.isspace c = false -> Py.lstrip (a ++ [c]) = Py.lstrip a ++ [c].
Proof.
  intros Hc. induction a as [|d a IH]; simpl; [by rewrite Hc |].
  destruct (Py.isspace d); done.
Qed.

Lemma rstrip_cons_nonspace (c : ascii) (l : str) :
  Py.isspace c = false -> Py.rstrip (c :: l) = c :: Py.rstrip l.
Proof.
  intros Hc. unfold Py.rstrip. simpl.
  by rewrite lstrip_app_nonspace, rev_app_distr.
Qed.

Lemma lstrip_head (l : str) :
  Py.lstrip l = [] \/ exists c r, Py.lstrip l = c :: r /\ Py.isspace c = false.
Proof.
  induction l as [|c l IH]; simpl; [by left |].
  destruct (Py.isspace c) eqn:Hc; [done |]. right. eauto.
Qed.

Lemma lstrip_id (c : ascii) (l : str) :
  Py.isspace c = false -> Py.lstrip (c :: l) = c :: l.
Proof. intros Hc. simpl. by rewrite Hc. Qed.

Lemma rstrip_idemp (l : str) : Py.rstrip (Py.rstrip l) = Py.rstrip l.
Proof.
  unfold Py.rstrip. rewrite rev_involutive. f_equal.
  destruct (lstrip_head (rev l)) as [-> | (c & r & -> & Hc)]; [done |].
  by apply lstrip_id.
Qed.

Lemma strip_idemp (l : str) : Py.strip (Py.strip l) = Py.strip l.
Proof.
  unfold Py.strip.
  destruct (lstrip_head l) as [-> | (c & r & -> & Hc)]; [done |].
  rewrite rstrip_cons_nonspace by done. rewrite lstrip_id by done.
  rewrite <- rstrip_cons_nonspace by done. apply rstrip_idemp.
Qed.

Lemma scan_to_drop (c : ascii) (l : str) :
  drop (scan_to c l) l = [] \/ exists r, drop (scan_to c l) l = c :: r.
Proof.
  induction l as [|a l IH]; simpl; [by left |].
  destruct (Ascii.eqb a c) eqn:Hac; [|done].
  apply Ascii.eqb_eq in Hac as ->. right. by exists l.
Qed.

Lemma startswith_nil_false (p : str) : p <> [] -> Py.startswith [] p = false.
Proof. by destruct p. Qed.

Lemma startswith_nonempty (l p : str) :
  Py.startswith l p = true -> p <> [] -> l <> [].
Proof. destruct p, l; done. Qed.

Lemma drop_nonempty_lt (i : nat) (x : str) : drop i x <> [] -> i < length x.
Proof.
  intros H. destruct (decide (i < length x)); [done |].
  exfalso. apply H. apply drop_ge. lia.
Qed.

Lemma spaces_self_closing (l : str) (b : bool) (tag : str) (n : nat) :
  read_tag l b [] = (tag, n) ->
  spaces ($"<" ++ tag ++ $">None</" ++ tag ++ $">")
  < spaces ($"<" ++ tag ++ $" />").
Proof.
  intros H. pose proof (read_tag_spaces l b []) as Ht. rewrite H in Ht.
  cbn [fst] in Ht. rewrite !spaces_app, Ht. simpl. lia.
Qed.

Lemma gtv_plain_value (x : str) :
  Py.strip x = x ->
  Py.startswith (drop (skip_decl x 0) x) $"</" = false ->
  Py.startswith (drop (skip_decl x 0) x) $"<" = false ->
  (_get_tag_value (Py.strip (drop (skip_decl x 0) x)) 0).1.1 = [].
Proof.
  intros Hidem H1 H2. unfold skip_decl in *. rewrite drop_0 in *.
  destruct (Py.startswith x $"<?") eqn:H0.
  - destruct (scan_to_drop "<" (drop (0 + 2) x)) as [Hd | [r Hd]];
      rewrite drop_drop in Hd; rewrite Hd in *; [done | done].
  - rewrite drop_0 in *. unfold _get_tag_value, skip_decl.
    rewrite !Hidem, !drop_0, H0. cbv iota. by rewrite !drop_0, H1, H2.
Qed.

#[local] Opaque Py.startswith Py.replace Py.strip read_tag read_value skip_decl.

(** The text on which the loop of [_xml2dict] continues. *)
Lemma gtv_rest_smaller (s tag value rest : str) :
  s <> [] -> _get_tag_value s 0 = (tag, value, rest) -> smaller rest s.
Proof.
  intros Hs H. unfold _get_tag_value in H.
  pose proof (spaces_strip s) as Hsp. pose proof (length_strip s) as Hlen.
  set (x := Py.strip s) in *. clearbody x.
  set (i := skip_decl x 0) in *. clearbody i.
  destruct (Py.startswith (drop i x) $"</") eqn:H1.
  { destruct (read_tag _ _ _) as [t n]. injection H as <- <- <-.
    apply startswith_nonempty in H1; [|done].
    apply drop_nonempty_lt in H1.
    right. split; [etrans; [apply spaces_drop | done] |].
    rewrite length_drop. lia. }
  destruct (negb _) eqn:H2.
  { injection H as <- <- <-. right. simpl. split; [lia |].
    destruct s; simpl; [done | lia]. }
  apply negb_false_iff in H2.
  apply startswith_nonempty in H2; [|done]. apply drop_nonempty_lt in H2.
  destruct (read_tag _ _ _) as [t n] eqn:Ht.
  apply spaces_self_closing in Ht as Hsc.
  destruct (Py.startswith x _) eqn:Hrep.
  - destruct (read_value _ _ _) as [v m]. injection H as <- <- <-.
    left. pose proof (replace_spaces_lt _ _ x Hsc Hrep).
    match goal with |- spaces (drop ?k ?y) < _ =>
      pose proof (spaces_drop k y) end. simpl in *. lia.
  - destruct (read_value _ _ _) as [v m]. injection H as <- <- <-.
    right. split; [etrans; [apply spaces_drop | done] |].
    rewrite length_drop. lia.
Qed.

(** The text on which [_xml2dict] calls itself. *)
Lemma gtv_value_smaller (s tag value rest : str) :
  s <> [] -> _get_tag_value s 0 = (tag, value, rest) ->
  (_get_tag_value (Py.strip value) 0).1.1 <> [] ->
  smaller (Py.strip value) s.
Proof.
  intros Hs H Hxml. unfold _get_tag_value in H.
  pose proof (spaces_strip s) as Hsp. pose proof (length_strip s) as Hlen.
  pose proof (gtv_plain_value _ (strip_idemp s)) as Hplain.
  set (x := Py.strip s) in *. clearbody x.
  set (i := skip_decl x 0) in *. clearbody i.
  destruct (Py.startswith (drop i x) $"</") eqn:H1.
  { destruct (read_tag _ _ _) as [t n]. injection H as <- <- <-. done. }
  destruct (negb _) eqn:H2.
  { apply negb_true_iff in H2. injection H as <- <- <-.
    exfalso. apply Hxml. by apply Hplain. }
  apply negb_false_iff in H2.
  apply startswith_nonempty in H2; [|done]. apply drop_nonempty_lt in H2.
  destruct (read_tag _ _ _) as [t n] eqn:Ht.
  apply spaces_self_closing in Ht as Hsc.
  match type of H with context [read_value t ?l []] =>
    pose proof (read_value_take t l []) as [k Hk] end.
  assert (Hstrip : forall y k' j,
             spaces (Py.strip (Py.drop_last 1 (take k' (drop j y)))) <= spaces y).
  { intros y k' j. etrans; [apply spaces_strip |].
    etrans; [apply spaces_drop_last |]. etrans; [apply spaces_take |].
    apply spaces_drop. }
  destruct (Py.startswith x _) eqn:Hrep.
  - destruct (read_value _ _ _) as [v m]. simpl in Hk.
    injection H as <- <- <-. subst v.
    left. pose proof (replace_spaces_lt _ _ x Hsc Hrep).
    match goal with
    | |- spaces (Py.strip (Py.drop_last 1 (take ?k (drop ?j ?y)))) < _ =>
        pose proof (Hstrip y k j) end. simpl in *. lia.
  - destruct (read_value _ _ _) as [v m]. simpl in Hk.
    injection H as <- <- <-. subst v.
    right. split; [etrans; [apply Hstrip | done] |].
    eapply Nat.le_lt_trans; [apply length_strip |].
    eapply Nat.le_lt_trans; [apply length_drop_last |].
    rewrite length_take, length_drop. lia.
Qed.

#[local] Transparent Py.startswith Py.replace Py.strip read_tag read_value skip_decl.

(** ** [_xml2dict] *)

(** What the parser builds and the path evaluator walks: a Python value
    that is a string or a dictionary from tag names to lists of values. *)
Inductive node :=
| Leaf (s : str)
| Dict (m : gmap str (list node)).

Abbreviation dict := (gmap str (list node)).

(** [if tag not in d: d[tag] = []] *)
Definition dict_touch (tag : str) (d : dict) : dict :=
  match d !! tag with
  | Some _ => d
  | None => <[tag := []]> d
  end.

(** [d[tag].append(v)] *)
Definition dict_append (tag : str) (v : node) (d : dict) : dict :=
  alter (fun l => l ++ [v]) tag d.

(** A value together with the equation that says where it comes from. *)
Definition inspect {A : Type} (x : A) : {y : A | x = y} := exist _ x eq_refl.

(** The [while s:] loop of [_xml2dict], with the dictionary built so far. *)
Equations? xml2dict_loop (s : str) (d : dict) : dict by wf s smaller :=
  xml2dict_loop [] d := d;
  xml2dict_loop (c :: s') d with inspect (_get_tag_value (c :: s') 0) := {
    | exist _ (tag, value, rest) Hgtv
        with inspect (_get_tag_value (Py.strip value) 0).1.1 := {
        | exist _ [] HisXml =>
            let value := Py.strip value in
            let d := dict_touch tag d in
            match value with
            | [] => xml2dict_loop rest d
            | _ :: _ =>
                xml2dict_loop rest (dict_append tag (Leaf (Py.strip value)) d)
            end
        | exist _ (_ :: _) HisXml =>
            let value := Py.strip value in
            let d := dict_touch tag d in
            let d := dict_touch tag d in
            xml2dict_loop rest
              (dict_append tag (Dict (xml2dict_loop value ∅)) d)
      }
  }.
Proof.
  all: try (eapply gtv_rest_smaller; [|exact Hgtv]; done).
  eapply gtv_value_smaller; [|exact Hgtv|]; [done |].
  by rewrite HisXml.
Qed.

Lemma xml2dict_loop_cons (c : ascii) (s : str) (d : dict) (tag value rest : str) :
  _get_tag_value (c :: s) 0 = (tag, value, rest) ->
  xml2dict_loop (c :: s) d =
  let value := Py.strip value in
  let d := dict_touch tag d in
  match (_get_tag_value value 0).1.1 with
  | [] =>
      match value with
      | [] => xml2dict_loop rest d
      | _ :: _ => xml2dict_loop rest (dict_append tag (Leaf (Py.strip value)) d)
      end
  | _ :: _ =>
      xml2dict_loop rest
        (dict_append tag (Dict (xml2dict_loop value ∅)) (dict_touch tag d))
  end.
Proof.
  intros H. rewrite xml2dict_loop_equation_2.
  destruct (inspect (_get_tag_value (c :: s) 0)) as [[[t v] r] Hgtv].
  assert (Heq : (t, v, r) = (tag, value, rest)) by congruence.
  injection Heq as -> -> ->.
  rewrite xml2dict_loop_clause_2_equation_1.
  destruct (inspect (_get_tag_value (Py.strip value) 0).1.1) as [[|a l] HisXml].
  - simp xml2dict_loop. cbv zeta. rewrite HisXml. reflexivity.
  - simp xml2dict_loop. cbv zeta. rewrite HisXml. reflexivity.
Qed.

(** ** A small backtracking matcher for the three patterns of [dlnap.py]

    The patterns are sequences of single characters, starred character
    classes and one capturing group; the matcher tries the alternatives in
    the order of Python's [re]. *)
Inductive rx_class :=
| RxAny                     (* the dot: every character but the line feed *)
| RxSpace                   (* \s *)
| RxDigit                   (* \d *)
| RxChar (c : ascii).

Inductive rx_item :=
| RxOne (c : rx_class)
| RxStar (greedy : bool) (c : rx_class)     (* a starred class, greedy or lazy *)
| RxPlus (c : rx_class)                     (* one or more, greedy *)
| RxOpen | RxClose.                         (* the group opens, closes *)

Definition rx_accepts (ignore_case : bool) (c : rx_class) (a : ascii) : bool :=
  match c with
  | RxAny => negb (Ascii.eqb a "010")
  | RxSpace => Py.isspace a
  | RxDigit => let n := nat_of_ascii a in (48 <=? n) && (n <=? 57)
  | RxChar b =>
      if ignore_case then Ascii.eqb (Py.lower_char a) (Py.lower_char b)
      else Ascii.eqb a b
  end.

(** The number of leading characters of [s] that the class accepts. *)
Fixpoint rx_run (ignore_case : bool) (c : rx_class) (s : str) : nat :=
  match s with
  | [] => 0
  | a :: s' => if rx_accepts ignore_case c a then S (rx_run ignore_case c s') else 0
  end.

Fixpoint first_some {A B : Type} (f : A -> option B) (l : list A) : option B :=
  match l with
  | [] => None
  | a :: l' => match f a with Some b => Some b | None => first_some f l' end
  end.

(** [rx_match ic r s pos g] matches [r] at the front of [s], which starts at
    position [pos] of the subject; [g] is the span of the group so far. The
    result is the end of the match and the span of the group. *)
Fixpoint rx_match (ic : bool) (r : list rx_item) (s : str) (pos : nat)
    (g : nat * nat) : option (nat * (nat * nat)) :=
  match r with
  | [] => Some (pos, g)
  | RxOne c :: r' =>
      match s with
      | a :: s' => if rx_accepts ic c a then rx_match ic r' s' (S pos) g else None
      | [] => None
      end
  | RxStar greedy c :: r' =>
      let n := rx_run ic c s in
      let counts := if greedy then rev (seq 0 (S n)) else seq 0 (S n) in
      first_some (fun k => rx_match ic r' (drop k s) (pos + k) g) counts
  | RxPlus c :: r' =>
      let n := rx_run ic c s in
      first_some (fun k => rx_match ic r' (drop k s) (pos + k) g)
                 (rev (seq 1 n))
  | RxOpen :: r' => rx_match ic r' s pos (pos, pos)
  | RxClose :: r' => rx_match ic r' s pos (g.1, pos)
  end.

(** [re.findall(r, s)] for a pattern with one group: the text of the group in
    every match, leftmost first, the search resuming where a match ended. *)
Fixpoint rx_findall_from (fuel : nat) (ic : bool) (r : list rx_item)
    (s : str) (pos : nat) : list str :=
  match fuel with
  | O => []
  | S fuel' =>
      if length s <? pos then []
      else match rx_match ic r (drop pos s) pos (pos, pos) with
           | Some (e, (gs, ge)) =>
               take (ge - gs) (drop gs s)
               :: rx_findall_from fuel' ic r s (if e =? pos then S pos else e)
           | None => rx_findall_from fuel' ic r s (S pos)
           end
  end.

Definition rx_findall (ic : bool) (r : list rx_item) (s : str) : list str :=
  rx_findall_from (S (length s)) ic r s 0.

Definition rx_lit (s : str) : list rx_item := map (fun c => RxOne (RxChar c)) s.

(** The pattern of [_xml2dict]: a lazy run of any characters, then the group,
    which is a [<] and the rest of the line. *)
Definition rx_until_xml : list rx_item :=
  [RxStar false RxAny; RxOpen; RxOne (RxChar "<"); RxStar true RxAny; RxClose].

(** The pattern of [_get_location_url]: a line feed, [location:], blanks, the
    group (the rest of the line up to its last carriage return), the carriage
    return and blanks. The inline flag makes the whole pattern
    case-insensitive. *)
Definition rx_location : list rx_item :=
  RxOne (RxChar "010") :: rx_lit $"location:"
  ++ [RxStar true RxSpace; RxOpen; RxStar true RxAny; RxClose;
      RxOne (RxChar "013"); RxStar true RxSpace].

(** The pattern of [_get_port]: [http://], a lazy run of any characters, a
    colon, the group (digits), and the rest of the line. *)
Definition rx_port : list rx_item :=
  rx_lit $"http://"
  ++ [RxStar false RxAny; RxOne (RxChar ":"); RxOpen; RxPlus RxDigit; RxClose;
      RxStar true RxAny].

Definition crlf : str := ["013"%char; "010"%char].

Example rx_location_ex :
  rx_findall true rx_location
    ($"HTTP/1.1 200 OK" ++ crlf ++ $"Location: http://10.0.0.5:8080/desc.xml"
       ++ crlf ++ $"ST: upnp:rootdevice" ++ crlf ++ crlf)
  = [$"http://10.0.0.5:8080/desc.xml"].
Proof. vm_compute. reflexivity. Qed.

Example rx_port_ex :
  rx_findall false rx_port $"http://10.0.0.5:8080/desc.xml" = [$"8080"].
Proof. vm_compute. reflexivity. Qed.

Example rx_until_xml_ex :
  rx_findall false rx_until_xml
    ($"HTTP/1.1 200 OK" ++ crlf ++ crlf ++ $"junk <a>x</a>" ++ ["010"%char] ++ $"<b>y</b>")
  = [$"<a>x</a>"; $"<b>y</b>"].
Proof. vm_compute. reflexivity. Qed.

Definition _xml2dict (s : str) (ignoreUntilXML : bool) : node :=
  let s := if ignoreUntilXML
           then concat (rx_findall false rx_until_xml s) else s in
  Dict (xml2dict_loop s ∅).

Example xml2dict_self_closing :
  _xml2dict $"<a />" false = Dict {[ $"a" := [Leaf $"ne"] ]}.
Proof. vm_compute. reflexivity. Qed.

Example xml2dict_doc :
  _xml2dict $"<?xml version=1?><a any_tag=1><b><bb>value1</bb></b><b><bb>value2</bb> <v>value3</v></b></c><d><e>value4</e></d><g>value</g></a>" false
  = Dict {[ $"a" := [Dict (<[ $"b" := [Dict {[ $"bb" := [Leaf $"value1"] ]};
                                  Dict (<[ $"bb" := [Leaf $"value2"] ]> {[ $"v" := [Leaf $"value3"] ]})] ]>
                     (<[ $"c" := [] ]>
                     (<[ $"d" := [Dict {[ $"e" := [Leaf $"value4"] ]}] ]>
                     {[ $"g" := [Leaf $"value"] ]})))] ]}.
Proof. vm_compute. reflexivity. Qed.

(** ** Exceptions and the path evaluator *)

(** The exceptions of the hierarchy under [Exception] that the modelled code
    can meet. [KeyboardInterrupt] is not under [Exception]; the discovery
    loop has it as an event of its own. *)
Inductive exn :=
| IndexError | KeyError (k : str) | TypeError | ValueError | AttributeError
| UnboundLocalError | ReError | UnicodeDecodeError | OSError
| Exception_ (msg : str).

Inductive outcome (A : Type) :=
| Ok (a : A)
| Raise (e : exn).
Arguments Ok {A} a.
Arguments Raise {A} e.

Definition bind {A B : Type} (m : outcome A) (f : A -> outcome B) : outcome B :=
  match m with
  | Ok a => f a
  | Raise e => Raise e
  end.

Notation "x <- m ;; k" := (bind m (fun x => k))
  (at level 100, m at next level, right associativity).

#[export] Instance node_eq_dec : EqDecision node.
Proof.
  refine (fix go (n1 n2 : node) {struct n1} : Decision (n1 = n2) :=
    let _ : EqDecision node := @go in
    match n1, n2 with
    | Leaf a, Leaf b => cast_if (decide (a = b))
    | Dict m1, Dict m2 => cast_if (decide (m1 = m2))
    | _, _ => right _
    end); congruence.
Defined.

(** [tag in d]: a key test on a dictionary, a substring test on a string. *)
Definition py_in (tag : str) (d : node) : bool :=
  match d with
  | Dict m => match m !! tag with Some _ => true | None => false end
  | Leaf s => Py.contains s tag
  end.

(** [d[tag]] with a string key. *)
Definition getitem (d : node) (tag : str) : outcome (list node) :=
  match d with
  | Dict m => match m !! tag with Some l => Ok l | None => Raise (KeyError tag) end
  | Leaf _ => Raise TypeError
  end.

(** [for s in l: if s[a] == [aval]: d = s; break] *)
Fixpoint xpath_filter (a aval : str) (l : list node) (d : node) : outcome node :=
  match l with
  | [] => Ok d
  | s :: l' =>
      v <- getitem s a ;;
      if bool_decide (v = [Leaf aval]) then Ok s else xpath_filter a aval l' d
  end.

(** [tag_attr[0]] and [tag_attr[1] if len(tag_attr) > 1 else ''] for
    [tag_attr = p.split('@')]. *)
Definition segment_tag (p : str) : str := hd [] (Py.split "@" p).
Definition segment_attr (p : str) : str :=
  let tag_attr := Py.split "@" p in
  if 1 <? length tag_attr then nth 1 tag_attr [] else [].

(** One round of the loop of [_xpath]: [Ok None] is the early [return None],
    [Ok (Some d)] the node the next round starts from. *)
Definition xpath_step (d : node) (p : str) : outcome (option node) :=
  let tag := segment_tag p in
  if negb (py_in tag d) then Ok None
  else
    let attr := segment_attr p in
    match attr with
    | _ :: _ =>
        match Py.split "=" attr with
        | [a; aval] =>
            l <- getitem d tag ;;
            d' <- xpath_filter a aval l d ;;
            Ok (Some d')
        | _ => Raise ValueError
        end
    | [] =>
        l <- getitem d tag ;;
        match l with
        | [] => Raise IndexError
        | x :: _ => Ok (Some x)
        end
    end.

Fixpoint xpath_loop (d : node) (ps : list str) : outcome (option node) :=
  match ps with
  | [] => Ok (Some d)
  | p :: ps' =>
      r <- xpath_step d p ;;
      match r with
      | None => Ok None
      | Some d' => xpath_loop d' ps'
      end
  end.

(** [_xpath(d, path)]: [Ok None] is Python's [None]. *)
Definition _xpath (d : node) (path : str) : outcome (option node) :=
  xpath_loop d (Py.split "/" path).

Example xpath_doc :
  _xpath (_xml2dict $"<a><b><bb>value1</bb></b><b><bb>value2</bb></b><g>value</g></a>" false)
         $"a/b@bb=value2/bb" = Ok (Some (Leaf $"value2")).
Proof. vm_compute. reflexivity. Qed.

(** ** Constants of the module *)

Definition dq : str := ["034"%char].
Definition __version__ : str := $"0.15".
Definition SSDP_GROUP : str * Z := ($"239.255.255.250", 1900%Z).
Definition URN_AVTransport : str := $"urn:schemas-upnp-org:service:AVTransport:1".
Definition URN_AVTransport_Fmt (v : str) : str :=
  $"urn:schemas-upnp-org:service:AVTransport:" ++ v.
Definition URN_RenderingControl : str :=
  $"urn:schemas-upnp-org:service:RenderingControl:1".
Definition URN_RenderingControl_Fmt (v : str) : str :=
  $"urn:schemas-upnp-org:service:RenderingControl:" ++ v.
Definition SSDP_ALL : str := $"ssdp:all".

(** ** Device resolution *)

(** [int(s)] on a run of decimal digits. *)
Definition int_of_digits (s : str) : Z :=
  fold_left (fun acc c => (10 * acc + (Z.of_nat (nat_of_ascii c) - 48))%Z) s 0%Z.

Definition _get_port (location : str) : Z :=
  match rx_findall false rx_port location with
  | p :: _ => int_of_digits p
  | [] => 80%Z
  end.

Definition _get_control_url (xml : node) (urn : str) : outcome (option node) :=
  _xpath xml ($"root/device/serviceList/service@serviceType=" ++ urn ++ $"/controlURL").

Definition _unescape_xml (xml : str) : str :=
  Py.replace (Py.replace (Py.replace xml $"&lt;" $"<") $"&gt;" $">") $"&quot;" dq.

Definition _get_friendly_name (xml : node) : outcome node :=
  name <- _xpath xml $"root/device/friendlyName" ;;
  Ok (match name with Some n => n | None => Leaf $"Unknown" end).

Record DlnapDevice := {
  ip : str;
  ssdp_version : Z;
  port : option Z;
  name : node;
  control_url : option node;
  rendering_control_url : option node;
  has_av_transport : bool;
  raw_text : option str;          (* self.__raw, unset at first *)
  location : option str;          (* self.location, unset at first *)
  desc_xml : option node          (* self.__desc_xml, unset at first *)
}.

Definition set_ssdp_version (v : Z) (d : DlnapDevice) : DlnapDevice :=
  {| ip := ip d; ssdp_version := v; port := port d; name := name d;
     control_url := control_url d;
     rendering_control_url := rendering_control_url d;
     has_av_transport := has_av_transport d; raw_text := raw_text d;
     location := location d; desc_xml := desc_xml d |}.
Definition set_port (v : option Z) (d : DlnapDevice) : DlnapDevice :=
  {| ip := ip d; ssdp_version := ssdp_version d; port := v; name := name d;
     control_url := control_url d;
     rendering_control_url := rendering_control_url d;
     has_av_transport := has_av_transport d; raw_text := raw_text d;
     location := location d; desc_xml := desc_xml d |}.
Definition set_name (v : node) (d : DlnapDevice) : DlnapDevice :=
  {| ip := ip d; ssdp_version := ssdp_version d; port := port d; name := v;
     control_url := control_url d;
     rendering_control_url := rendering_control_url d;
     has_av_transport := has_av_transport d; raw_text := raw_text d;
     location := location d; desc_xml := desc_xml d |}.
Definition set_control_url (v : option node) (d : DlnapDevice) : DlnapDevice :=
  {| ip := ip d; ssdp_version := ssdp_version d; port := port d; name := name d;
     control_url := v;
     rendering_control_url := rendering_control_url d;
     has_av_transport := has_av_transport d; raw_text := raw_text d;
     location := location d; desc_xml := desc_xml d |}.
Definition set_rendering_control_url (v : option node) (d : DlnapDevice)
  : DlnapDevice :=
  {| ip := ip d; ssdp_version := ssdp_version d; port := port d; name := name d;
     control_url := control_url d;
     rendering_control_url := v;
     has_av_transport := has_av_transport d; raw_text := raw_text d;
     location := location d; desc_xml := desc_xml d |}.
Definition set_has_av_transport (v : bool) (d : DlnapDevice) : DlnapDevice :=
  {| ip := ip d; ssdp_version := ssdp_version d; port := port d; name := name d;
     control_url := control_url d;
     rendering_control_url := rendering_control_url d;
     has_av_transport := v; raw_text := raw_text d;
     location := location d; desc_xml := desc_xml d |}.
Definition set_raw_text (v : option str) (d : DlnapDevice) : DlnapDevice :=
  {| ip := ip d; ssdp_version := ssdp_version d; port := port d; name := name d;
     control_url := control_url d;
     rendering_control_url := rendering_control_url d;
     has_av_transport := has_av_transport d; raw_text := v;
     location := location d; desc_xml := desc_xml d |}.
Definition set_location (v : option str) (d : DlnapDevice) : DlnapDevice :=
  {| ip := ip d; ssdp_version := ssdp_version d; port := port d; name := name d;
     control_url := control_url d;
     rendering_control_url := rendering_control_url d;
     has_av_transport := has_av_transport d; raw_text := raw_text d;
     location := v; desc_xml := desc_xml d |}.
Definition set_desc_xml (v : option node) (d : DlnapDevice) : DlnapDevice :=
  {| ip := ip d; ssdp_version := ssdp_version d; port := port d; name := name d;
     control_url := control_url d;
     rendering_control_url := rendering_control_url d;
     has_av_transport := has_av_transport d; raw_text := raw_text d;
     location := location d; desc_xml := v |}.

(** Code that assigns to the fields of [self] and may raise: the fields
    assigned before an exception stay assigned. *)
Definition method (A : Type) : Type := DlnapDevice -> outcome A * DlnapDevice.

Definition m_bind {A B : Type} (m : method A) (f : A -> method B) : method B :=
  fun self =>
    match m self with
    | (Ok a, self') => f a self'
    | (Raise e, self') => (Raise e, self')
    end.

Definition m_call {A : Type} (o : outcome A) : method A := fun self => (o, self).
Definition m_assign (f : DlnapDevice -> DlnapDevice) : method unit :=
  fun self => (Ok tt, f self).
Definition m_read {A : Type} (f : DlnapDevice -> A) : method A :=
  fun self => (Ok (f self), self).

Notation "x <~ m ;; k" := (m_bind m (fun x => k))
  (at level 100, m at next level, right associativity).
Notation "m ;;; k" := (m_bind m (fun _ => k))
  (at level 100, right associativity).

Abbreviation bytes := (list Byte.byte).

Section Resolver.

(** [raw.decode()] of the datagram. *)
Variable bytes_decode : bytes -> outcome str.
(** What the network answers to [urlopen(url).read().decode()]. *)
Variable urlopen_read : str -> outcome str.
(** Whether the interpreter accepts a global inline flag in the middle of a
    pattern (it is an error from Python 3.11 on). *)
Variable inline_flag_accepted : bool.

Definition _get_location_url (raw : str) : outcome str :=
  if inline_flag_accepted then
    match rx_findall true rx_location raw with
    | t0 :: _ => Ok t0
    | [] => Ok []
    end
  else Raise ReError.

(** [urlopen(location).read().decode()]; [urlopen] refuses a url without
    a scheme, as the empty string is, with a [ValueError]. *)
Definition fetch (loc : str) : outcome str :=
  match loc with
  | [] => Raise ValueError
  | _ :: _ => urlopen_read loc
  end.

(** The fields as [__init__] sets them before the [try]. *)
Definition init_fields (ip0 : str) : DlnapDevice :=
  {| ip := ip0; ssdp_version := 1; port := None; name := Leaf $"Unknown";
     control_url := None; rendering_control_url := None;
     has_av_transport := false; raw_text := None; location := None;
     desc_xml := None |}.

(** The body of the [try] of [__init__]. *)
Definition init_try (raw : bytes) : method unit :=
  text <~ m_call (bytes_decode raw) ;;
  m_assign (set_raw_text (Some text)) ;;;
  loc <~ m_call (_get_location_url text) ;;
  m_assign (set_location (Some loc)) ;;;
  m_assign (set_port (Some (_get_port loc))) ;;;
  raw_desc_xml <~ m_call (fetch loc) ;;
  let xml := _xml2dict raw_desc_xml false in
  m_assign (set_desc_xml (Some xml)) ;;;
  n <~ m_call (_get_friendly_name xml) ;;
  m_assign (set_name n) ;;;
  cu <~ m_call (_get_control_url xml URN_AVTransport) ;;
  m_assign (set_control_url cu) ;;;
  rcu <~ m_call (_get_control_url xml URN_RenderingControl) ;;
  m_assign (set_rendering_control_url rcu) ;;;
  cu' <~ m_read control_url ;;
  m_assign (set_has_av_transport (bool_decide (cu' <> None))).

(** [DlnapDevice(raw, ip)]: the [except Exception] clause logs a warning
    and lets the constructor return. *)
Definition DlnapDevice_init (raw : bytes) (ip0 : str) : outcome DlnapDevice :=
  match init_try raw (init_fields ip0) with
  | (Ok _, self) => Ok self
  | (Raise _, self) => Ok self
  end.

(** The [try] of [__init__] ended in the [except] clause. *)
Definition resolution_failed (raw : bytes) (ip0 : str) : Prop :=
  exists e, (init_try raw (init_fields ip0)).1 = Raise e.

End Resolver.

(** ** The SOAP request *)

(** The values of the fields of an action: integers and strings. *)
Inductive field_value :=
| FInt (z : Z)
| FStr (s : str).

Definition format_field (v : field_value) : str :=
  match v with
  | FInt z => Py.str_of_int z
  | FStr s => s
  end.

Definition lf : str := ["010"%char].
Definition blanks (n : nat) : str := repeat " "%char n.

(** The fields are kept in the order of insertion, as [data.items()] gives
    them. *)
Definition _payload_from_template (action : str)
    (data : list (str * field_value)) (urn : str) : str :=
  let fields :=
    fold_left
      (fun fields '(tag, value) =>
         fields ++ $"<" ++ tag ++ $">" ++ format_field value
                ++ $"</" ++ tag ++ $">")
      data [] in
  $"<?xml version=" ++ dq ++ $"1.0" ++ dq ++ $" encoding=" ++ dq ++ $"utf-8"
    ++ dq ++ $"?>" ++ lf
  ++ blanks 9 ++ $"<s:Envelope xmlns:s=" ++ dq
    ++ $"http://schemas.xmlsoap.org/soap/envelope/" ++ dq
    ++ $" s:encodingStyle=" ++ dq
    ++ $"http://schemas.xmlsoap.org/soap/encoding/" ++ dq ++ $">" ++ lf
  ++ blanks 12 ++ $"<s:Body>" ++ lf
  ++ blanks 15 ++ $"<u:" ++ action ++ $" xmlns:u=" ++ dq ++ urn ++ dq
    ++ $">" ++ lf
  ++ blanks 18 ++ fields ++ lf
  ++ blanks 15 ++ $"</u:" ++ action ++ $">" ++ lf
  ++ blanks 12 ++ $"</s:Body>" ++ lf
  ++ blanks 9 ++ $"</s:Envelope>".

Section Packet.

(** The path of the script, [__file__]. *)
Variable __file__ : str.
(** [str] of a dictionary, left to the interpreter. *)
Variable str_of_dict : dict -> str.

(** What [format] writes for a control url. *)
Definition format_url (url : option node) : str :=
  match url with
  | None => $"None"
  | Some (Leaf s) => s
  | Some (Dict m) => str_of_dict m
  end.

Definition format_port (p : option Z) : str :=
  match p with
  | None => $"None"
  | Some z => Py.str_of_int z
  end.

Definition rendering_actions : list str :=
  [$"SetVolume"; $"SetMute"; $"GetVolume"].

Definition _create_packet (self : DlnapDevice) (action : str)
    (data : list (str * field_value)) : str :=
  let '(url, urn) :=
    if bool_decide (action ∈ rendering_actions)
    then (rendering_control_url self,
          URN_RenderingControl_Fmt (Py.str_of_int (ssdp_version self)))
    else (control_url self,
          URN_AVTransport_Fmt (Py.str_of_int (ssdp_version self))) in
  let payload := _payload_from_template action data urn in
  Py.join crlf [
    $"POST " ++ format_url url ++ $" HTTP/1.1";
    $"User-Agent: " ++ __file__ ++ $"/" ++ __version__;
    $"Accept: */*";
    $"Content-Type: text/xml; charset=" ++ dq ++ $"utf-8" ++ dq;
    $"HOST: " ++ ip self ++ $":" ++ format_port (port self);
    $"Content-Length: " ++ Py.str_of_int (Z.of_nat (length payload));
    $"SOAPACTION: " ++ dq ++ urn ++ $"#" ++ action ++ dq;
    $"Connection: close";
    [];
    payload
  ].

(** The packet of [play]. *)
Definition play_packet (self : DlnapDevice) (instance_id : Z) : str :=
  _create_packet self $"Play"
    [($"InstanceID", FInt instance_id); ($"Speed", FInt 1)].

End Packet.

(** The number of bytes of [s.encode('utf-8')] (code points below 256). *)
Definition utf8_length (s : str) : nat :=
  fold_right (fun c n => (if nat_of_ascii c <? 128 then 1 else 2) + n) 0 s.

(** ** [_send_tcp] *)

(** What the network does during one call. *)
Record tcp_session := {
  tcp_socket : outcome unit;      (* socket.socket(...) *)
  tcp_connect : outcome unit;     (* sock.connect(to) *)
  tcp_sendall : outcome unit;     (* sock.sendall(...) *)
  tcp_recv : outcome bytes        (* sock.recv(2048) *)
}.

Record tcp_state := {
  sock_bound : bool;              (* the local name sock is assigned *)
  sock_closed : bool;             (* sock.close() was called *)
  error_log : list node           (* what logging.error received *)
}.

Definition tcp_start : tcp_state :=
  {| sock_bound := false; sock_closed := false; error_log := [] |}.

Definition fault_path : str :=
  $"s:Envelope/s:Body/s:Fault/detail/UPnPError/errorDescription".

Section Tcp.

(** [data.decode('utf-8')] *)
Variable bytes_decode : bytes -> outcome str.

(** The body of the [try] of [_send_tcp]. *)
Definition send_tcp_try (net : tcp_session) (st : tcp_state)
  : outcome node * tcp_state :=
  match tcp_socket net with
  | Raise e => (Raise e, st)
  | Ok _ =>
      let st := {| sock_bound := true; sock_closed := sock_closed st;
                   error_log := error_log st |} in
      match tcp_connect net with
      | Raise e => (Raise e, st)
      | Ok _ =>
          match tcp_sendall net with
          | Raise e => (Raise e, st)
          | Ok _ =>
              match tcp_recv net with
              | Raise e => (Raise e, st)
              | Ok received =>
                  match bytes_decode received with
                  | Raise e => (Raise e, st)
                  | Ok text =>
                      let data := _xml2dict (_unescape_xml text) true in
                      match _xpath data fault_path with
                      | Raise e => (Raise e, st)
                      | Ok None => (Ok data, st)
                      | Ok (Some errorDescription) =>
                          (Ok data,
                           {| sock_bound := sock_bound st;
                              sock_closed := sock_closed st;
                              error_log := error_log st ++ [errorDescription] |})
                      end
                  end
              end
          end
      end
  end.

(** [_send_tcp(to, payload)]: the [except Exception] clause sets the
    answer to the empty string, the [finally] clause closes the socket. *)
Definition _send_tcp (net : tcp_session) (to : str * option Z) (payload : str)
    (st : tcp_state) : outcome node * tcp_state :=
  let '(r, st) := send_tcp_try net st in
  let data := match r with Ok d => d | Raise _ => Leaf [] end in
  if sock_bound st
  then (Ok data, {| sock_bound := true; sock_closed := true;
                    error_log := error_log st |})
  else (Raise UnboundLocalError, st).

End Tcp.

(** ** The discovery loop *)

(** [__eq__] of [DlnapDevice]. *)
Definition __eq__ (self d : DlnapDevice) : bool :=
  bool_decide (name self = name d) && bool_decide (ip self = ip d).

(** What one round of the [while True] loop meets before the deadline. A
    round in which the clock has passed the deadline ends the loop: the
    events given to the loop are those that come before that round. *)
Inductive loop_event :=
| EvInterrupt                               (* KeyboardInterrupt inside the try *)
| EvReadable (data : bytes) (sender : str)  (* sock in r, and what recvfrom gives *)
| EvExceptional                             (* sock in x *)
| EvIdle                                    (* nothing to read *)
| EvSocketError (e : exn).                  (* select or recvfrom raises *)

Inductive socket_state := NoSocket | SocketOpen | SocketClosed.

(** The state the call works on: [self.devices], what was printed (the index
    and the device of every line), the UDP socket and what was sent on it. *)
Record cli := {
  devices : list DlnapDevice;
  printed : list (nat * DlnapDevice);
  udp_socket : socket_state;
  udp_sent : list ((str * Z) * str)
}.

Definition with_devices (ds : list DlnapDevice) (c : cli) : cli :=
  {| devices := ds; printed := printed c; udp_socket := udp_socket c;
     udp_sent := udp_sent c |}.
Definition with_printed (p : list (nat * DlnapDevice)) (c : cli) : cli :=
  {| devices := devices c; printed := p; udp_socket := udp_socket c;
     udp_sent := udp_sent c |}.
Definition with_socket (s : socket_state) (c : cli) : cli :=
  {| devices := devices c; printed := printed c; udp_socket := s;
     udp_sent := udp_sent c |}.
Definition with_sent (l : list ((str * Z) * str)) (c : cli) : cli :=
  {| devices := devices c; printed := printed c; udp_socket := udp_socket c;
     udp_sent := l |}.

(** How the loop is left. *)
Inductive loop_end :=
| AtDeadline                    (* the clock check, after the last event *)
| ByBreak                       (* the search by ip found its device *)
| ByInterrupt                   (* KeyboardInterrupt, caught around the loop *)
| ByException (e : exn).        (* an exception that nothing in discover catches *)

(** [self.devices.index(d)] *)
Fixpoint index_of (d : DlnapDevice) (l : list DlnapDevice) : nat :=
  match l with
  | [] => 0
  | e :: l' => if __eq__ e d then 0 else S (index_of d l')
  end.

(** [not name or name is None or name.lower() in d.name.lower()] *)
Definition name_matches (name0 : str) (d : DlnapDevice) : outcome bool :=
  match name0 with
  | [] => Ok true
  | _ :: _ =>
      match name d with
      | Leaf s => Ok (Py.contains (Py.lower s) (Py.lower name0))
      | Dict _ => Raise AttributeError
      end
  end.

(** A context manager made from a generator by [contextlib.contextmanager],
    with no [try] around its [yield]: what runs up to the [yield] and what
    runs after it. *)
Record generator_cm (S A : Type) := {
  up_to_yield : S -> outcome A * S;
  after_yield : A -> S -> S
}.
Arguments up_to_yield {S A} g.
Arguments after_yield {S A} g.

(** The [with] statement on such a manager. When the block raises, the
    exception is thrown into the generator at the [yield]; nothing there
    catches it, the generator ends without resuming and the exception goes
    on. *)
Definition with_cm {S A B : Type} (g : generator_cm S A)
    (block : A -> S -> outcome B * S) (s : S) : outcome B * S :=
  match up_to_yield g s with
  | (Raise e, s1) => (Raise e, s1)
  | (Ok a, s1) =>
      match block a s1 with
      | (Ok b, s2) => (Ok b, after_yield g a s2)
      | (Raise e, s2) => (Raise e, s2)
      end
  end.

(** What a call returns: [None], or a list of devices. *)
Inductive returned :=
| PyNone
| PyList (l : list DlnapDevice).

Section Discovery.

Variable bytes_decode : bytes -> outcome str.
Variable urlopen_read : str -> outcome str.
Variable inline_flag_accepted : bool.
Variable __file__ : str.
(** What [socket.socket(...)] does, and what [sock.sendto(...)] does. *)
Variable udp_create : outcome unit.
Variable udp_sendto : outcome unit.

(** [_send_udp(to, packet)]. When [sendto] raises, the socket exists
    already: the generator ends before its [yield] and nothing closes the
    socket. *)
Definition _send_udp (to : str * Z) (packet : str) : generator_cm cli unit :=
  {| up_to_yield := fun c =>
       match udp_create with
       | Raise e => (Raise e, c)
       | Ok _ =>
           match udp_sendto with
           | Ok _ =>
               (Ok tt, with_sent (udp_sent c ++ [(to, packet)])
                         (with_socket SocketOpen c))
           | Raise e => (Raise e, with_socket SocketOpen c)
           end
       end;
     after_yield := fun _ c => with_socket SocketClosed c |}.

(** The rounds of the [while True] loop of [discover]. *)
Fixpoint discover_loop (name0 ip0 : str) (ssdp_version0 : Z)
    (events : list loop_event) (c : cli) : loop_end * cli :=
  match events with
  | [] => (AtDeadline, c)
  | EvInterrupt :: _ => (ByInterrupt, c)
  | EvExceptional :: _ =>
      (ByException (Exception_ $"Getting response failed"), c)
  | EvSocketError e :: _ => (ByException e, c)
  | EvIdle :: events' => discover_loop name0 ip0 ssdp_version0 events' c
  | EvReadable data sender :: events' =>
      if negb (bool_decide (ip0 = [])) && negb (bool_decide (sender = ip0))
      then discover_loop name0 ip0 ssdp_version0 events' c
      else
        match DlnapDevice_init bytes_decode urlopen_read inline_flag_accepted
                data sender with
        | Raise e => (ByException e, c)
        | Ok d =>
            let d := set_ssdp_version ssdp_version0 d in
            if existsb (fun e => __eq__ e d) (devices c)
            then discover_loop name0 ip0 ssdp_version0 events' c
            else
              match name_matches name0 d with
              | Raise e => (ByException e, c)
              | Ok false => discover_loop name0 ip0 ssdp_version0 events' c
              | Ok true =>
                  let c := with_devices (devices c ++ [d]) c in
                  let c := with_printed
                             (printed c ++ [(index_of d (devices c), d)]) c in
                  if bool_decide (ip0 = []) then
                    discover_loop name0 ip0 ssdp_version0 events' c
                  else if has_av_transport d then (ByBreak, c)
                  else discover_loop name0 ip0 ssdp_version0 events' c
              end
        end
  end.

(** The search request. *)
Definition search_payload (st : str -> str) (mx ssdp_version0 : Z) : str :=
  let st := st (Py.str_of_int ssdp_version0) in
  Py.join crlf [
    $"M-SEARCH * HTTP/1.1";
    $"User-Agent: " ++ __file__ ++ $"/" ++ __version__;
    $"HOST: " ++ SSDP_GROUP.1 ++ $":" ++ Py.str_of_int SSDP_GROUP.2;
    $"Accept: */*";
    $"MAN: " ++ dq ++ $"ssdp:discover" ++ dq;
    $"ST: " ++ st;
    $"MX: " ++ Py.str_of_int mx;
    [];
    []
  ].

(** [discover(name, ip, timeout, st, mx, ssdp_version)]. The [timeout] is
    in the events: they are what happens before the deadline. The template
    [st] is a function of the version it is formatted with. The function
    has no [return] statement, so a call that ends returns [None]. *)
Definition discover (name0 ip0 : str) (st : str -> str) (mx ssdp_version0 : Z)
    (events : list loop_event) (c : cli) : outcome returned * cli :=
  let payload := search_payload st mx ssdp_version0 in
  let '(r, c) :=
    with_cm (_send_udp SSDP_GROUP payload)
      (fun sock c =>
         match discover_loop name0 ip0 ssdp_version0 events c with
         | (ByException e, c) => (Raise e, c)
         | (_, c) => (Ok tt, c)
         end) c in
  match r with
  | Ok _ => (Ok PyNone, c)
  | Raise e => (Raise e, c)
  end.

End Discovery.

(** * Properties *)

(** ** The path evaluator *)

#[local] Arguments segment_tag : simpl never.
#[local] Arguments segment_attr : simpl never.

Lemma xpath_loop_app (d : node) (pre post : list str) :
  xpath_loop d (pre ++ post) =
  (r <- xpath_loop d pre ;;
   match r with
   | None => Ok None
   | Some d' => xpath_loop d' post
   end).
Proof.
  revert d. induction pre as [|p pre IH]; intros d; simpl; [done |].
  destruct (xpath_step d p) as [[d'|]|e]; simpl; [apply IH | done | done].
Qed.

Lemma xpath_step_unfiltered_empty (m : dict) (p : str) :
  segment_attr p = [] -> m !! segment_tag p = Some [] ->
  xpath_step (Dict m) p = Raise IndexError.
Proof.
  intros Hattr Hm. unfold xpath_step, py_in, getitem. by rewrite Hm, Hattr.
Qed.

(** An entry of a child sequence that has the attribute [a] equal to [aval]:
    a dictionary whose key [a] holds the one-element list of [aval]. *)
Definition has_attr_equal (a aval : str) (s : node) : Prop :=
  exists m, s = Dict m /\ m !! a = Some [Leaf aval].

(** An entry that carries the attribute [a] with another value. *)
Definition has_attr_other (a aval : str) (s : node) : Prop :=
  exists m v, s = Dict m /\ m !! a = Some v /\ v <> [Leaf aval].

Lemma xpath_filter_no_match (a aval : str) (l : list node) (d : node) :
  Forall (has_attr_other a aval) l -> xpath_filter a aval l d = Ok d.
Proof.
  induction 1 as [|s l (m & v & -> & Hm & Hv) _ IH]; [done |].
  cbn [xpath_filter]. unfold getitem. rewrite Hm. cbn [bind].
  by rewrite bool_decide_eq_false_2.
Qed.

(** C10, as stated, fails: in the tree parsed from [<a><b>x</b></a>] the one
    entry under [a] does not have the attribute [c] equal to [v] (it has no
    [c] at all), and the segment [a@c=v] raises [KeyError] instead of leaving
    the node as it is. *)
Lemma c10_missing_attribute_raises :
  let d := _xml2dict $"<a><b>x</b></a>" false in
  d = Dict {[ $"a" := [Dict {[ $"b" := [Leaf $"x"] ]}] ]}
  /\ Forall (fun s => ~ has_attr_equal $"c" $"v" s)
            [Dict {[ $"b" := [Leaf $"x"] ]}]
  /\ xpath_step d $"a@c=v" = Raise (KeyError $"c")
  /\ _xpath d $"a@c=v/b" = Raise (KeyError $"c").
Proof.
  split; [by vm_compute |]. split; [|split; by vm_compute].
  constructor; [|constructor]. intros (m & Hm & Hc).
  injection Hm as <-. by vm_compute in Hc.
Qed.

(** C10 (amended): when a segment carries a filter [tag@a=aval], the tag is
    in the current dictionary and every entry of its child sequence is a
    dictionary that carries [a] with a value other than [aval], the round
    neither raises nor returns not-found: it leaves the current node as it is
    and the evaluation goes on with the next segment from the same node. *)
Theorem c10_filter_without_match_keeps_node
    (m : dict) (p a aval : str) (l : list node) (ps : list str) :
  segment_attr p <> [] ->
  Py.split "=" (segment_attr p) = [a; aval] ->
  m !! segment_tag p = Some l ->
  Forall (has_attr_other a aval) l ->
  xpath_step (Dict m) p = Ok (Some (Dict m))
  /\ xpath_loop (Dict m) (p :: ps) = xpath_loop (Dict m) ps.
Proof.
  intros Hattr Hsplit Hm Hl.
  assert (Hstep : xpath_step (Dict m) p = Ok (Some (Dict m))).
  { unfold xpath_step, py_in, getitem. rewrite Hm. cbn [negb bind].
    destruct (segment_attr p) as [|c attr] eqn:Ha; [done |].
    rewrite Hsplit. by rewrite xpath_filter_no_match. }
  split; [done |]. simpl. by rewrite Hstep.
Qed.

Lemma c10_filter_without_match_keeps_node_witness :
  let m : dict := {[ $"a" := [Dict {[ $"c" := [Leaf $"w"] ]}] ]} in
  xpath_step (Dict m) $"a@c=v" = Ok (Some (Dict m))
  /\ xpath_loop (Dict m) [$"a@c=v"; $"a"] = xpath_loop (Dict m) [$"a"].
Proof.
  intros m.
  apply (c10_filter_without_match_keeps_node m $"a@c=v" $"c" $"v"
           [Dict {[ $"c" := [Leaf $"w"] ]}] [$"a"]).
  - by vm_compute.
  - by vm_compute.
  - by vm_compute.
  - constructor; [|constructor].
    exists {[ $"c" := [Leaf $"w"] ]}, [Leaf $"w"].
    split; [done |]. split; [by vm_compute | by vm_compute].
Defined.

(** ** Self-closing elements *)

(** C8: the rewriting of a self-closing element leaves the reading position
    where it was in the text before the rewriting, two characters into the
    placeholder: [<a />] is parsed to the leaf [ne], not to [None]; and the
    spelling [<a/>] is not rewritten at all and gives the key [a/] with no
    child. *)
Theorem c8_self_closing_placeholder_is_cut :
  _get_tag_value $"<a />" 0 = ($"a", $"ne", [])
  /\ _xml2dict $"<a />" false = Dict {[ $"a" := [Leaf $"ne"] ]}
  /\ _xml2dict $"<a />" false <> Dict {[ $"a" := [Leaf $"None"] ]}
  /\ _xml2dict $"<a/>" false = Dict {[ $"a/" := [] ]}.
Proof. repeat split; by vm_compute. Qed.

(** ** Device resolution *)

(** A description whose first service is the AVTransport one and whose
    second service has no [serviceType]. *)
Definition desc_second_service_untyped : str :=
  $"<root><device><friendlyName>TV</friendlyName><serviceList><service><serviceType>urn:schemas-upnp-org:service:AVTransport:1</serviceType><controlURL>/ctrl</controlURL></service><service><controlURL>/x</controlURL></service></serviceList></device></root>".

(** A discovery response with a LOCATION header. *)
Definition response_with_location : str :=
  $"HTTP/1.1 200 OK" ++ crlf ++ $"LOCATION: http://10.0.0.5:8080/desc.xml"
    ++ crlf ++ crlf.

(** A discovery response without a LOCATION header. *)
Definition response_without_location : str :=
  $"HTTP/1.1 200 OK" ++ crlf ++ $"ST: upnp:rootdevice" ++ crlf ++ crlf.

(** C2, as stated, fails on an interpreter that accepts the inline flag in
    the middle of the pattern of [_get_location_url] (the third argument of
    the constructor below): on this description the lookup of the
    RenderingControl url raises after the AVTransport url was assigned; the
    exception is caught and the device returned has [has_av_transport] false
    but a control url that is not null. *)
Lemma c2_control_url_kept_after_failure :
  let decode := fun _ : bytes => Ok response_with_location in
  let urlopen := fun _ : str => Ok desc_second_service_untyped in
  resolution_failed decode urlopen true [] $"10.0.0.5"
  /\ exists d, DlnapDevice_init decode urlopen true [] $"10.0.0.5" = Ok d
       /\ has_av_transport d = false
       /\ control_url d = Some (Leaf $"/ctrl")
       /\ control_url d <> None.
Proof.
  intros decode urlopen. split.
  - exists (KeyError $"serviceType"). by vm_compute.
  - eexists. split; [by vm_compute |]. by vm_compute.
Qed.

Section ResolverFacts.

Variable bytes_decode : bytes -> outcome str.
Variable urlopen_read : str -> outcome str.
Variable inline_flag_accepted : bool.

(** A response without a LOCATION header: where the pattern is accepted the
    location is the empty string and the fetch raises, where it is not the
    search raises; no url is assigned in either case. *)
Lemma init_try_no_location (raw : bytes) (ip0 text : str) :
  bytes_decode raw = Ok text ->
  rx_findall true rx_location text = [] ->
  exists e self,
    init_try bytes_decode urlopen_read inline_flag_accepted raw (init_fields ip0)
    = (Raise e, self)
    /\ control_url self = None /\ rendering_control_url self = None
    /\ has_av_transport self = false.
Proof.
  intros Hdec Hloc.
  unfold init_try, m_bind, m_call, m_assign, m_read.
  rewrite Hdec. unfold _get_location_url.
  destruct inline_flag_accepted.
  - rewrite Hloc. eexists _, _. split; [reflexivity |]. by repeat split.
  - eexists _, _. split; [reflexivity |]. by repeat split.
Qed.

(** Where the pattern of [_get_location_url] is refused, every resolution
    fails before a url is assigned. *)
Lemma init_try_flag_rejected (raw : bytes) (ip0 : str) :
  inline_flag_accepted = false ->
  exists e self,
    init_try bytes_decode urlopen_read inline_flag_accepted raw (init_fields ip0)
    = (Raise e, self)
    /\ control_url self = None /\ rendering_control_url self = None
    /\ has_av_transport self = false.
Proof.
  intros Hflag.
  unfold init_try, m_bind, m_call, m_assign, m_read.
  destruct (bytes_decode raw) as [text|e].
  - unfold _get_location_url. rewrite Hflag.
    eexists _, _. split; [reflexivity |]. by repeat split.
  - eexists _, _. split; [reflexivity |]. by repeat split.
Qed.

(** What the [try] of [__init__] leaves in the fields, case by case. *)
Lemma init_try_cases (raw : bytes) (ip0 : str) :
  let r := init_try bytes_decode urlopen_read inline_flag_accepted raw (init_fields ip0) in
  (exists e, r.1 = Raise e
     /\ has_av_transport r.2 = false
     /\ rendering_control_url r.2 = None
     /\ (control_url r.2 = None
         \/ exists xml u e',
              desc_xml r.2 = Some xml
              /\ _get_control_url xml URN_AVTransport = Ok u
              /\ control_url r.2 = u
              /\ _get_control_url xml URN_RenderingControl = Raise e'
              /\ inline_flag_accepted = true))
  \/ (r.1 = Ok tt
      /\ has_av_transport r.2 = bool_decide (control_url r.2 <> None)).
Proof.
  unfold init_try, m_bind, m_call, m_assign, m_read. cbv zeta.
  destruct (bytes_decode raw) as [text|e]; cbn [fst snd];
    [|left; exists e; repeat split; left; reflexivity].
  destruct (_get_location_url inline_flag_accepted text) as [loc|e] eqn:Hloc;
    cbn [fst snd]; [|left; exists e; repeat split; left; reflexivity].
  assert (Hflag : inline_flag_accepted = true).
  { unfold _get_location_url in Hloc. by destruct inline_flag_accepted. }
  clear Hloc.
  destruct (fetch urlopen_read loc) as [body|e]; cbn [fst snd];
    [|left; exists e; repeat split; left; reflexivity].
  destruct (_get_friendly_name (_xml2dict body false)) as [n|e]; cbn [fst snd];
    [|left; exists e; repeat split; left; reflexivity].
  destruct (_get_control_url (_xml2dict body false) URN_AVTransport)
    as [cu|e] eqn:Hcu;
    cbn [fst snd]; [|left; exists e; repeat split; left; reflexivity].
  destruct (_get_control_url (_xml2dict body false) URN_RenderingControl)
    as [rcu|e] eqn:Hrcu; cbn [fst snd].
  - right. split; reflexivity.
  - left. exists e. repeat split.
    right. exists (_xml2dict body false), cu, e. repeat split; assumption.
Qed.

(** C2 (amended): the constructor always returns a device; when the
    resolution failed, the device has [has_av_transport] false and a null
    RenderingControl url, and its AVTransport control url is null too but
    in one case: the interpreter accepts the pattern of [_get_location_url]
    and the failure came after that url was read from the description, in
    the lookup of the RenderingControl url. Where the interpreter refuses
    the pattern, every resolution fails and both urls are null. A response
    without a LOCATION header fails on either kind of interpreter and
    leaves both urls null. *)
Theorem c2_resolution_never_raises (raw : bytes) (ip0 : str) :
  exists d,
    DlnapDevice_init bytes_decode urlopen_read inline_flag_accepted raw ip0 = Ok d
    /\ (resolution_failed bytes_decode urlopen_read inline_flag_accepted raw ip0 ->
        has_av_transport d = false
        /\ rendering_control_url d = None
        /\ (control_url d <> None ->
            inline_flag_accepted = true
            /\ exists xml e,
                 desc_xml d = Some xml
                 /\ _get_control_url xml URN_AVTransport = Ok (control_url d)
                 /\ _get_control_url xml URN_RenderingControl = Raise e))
    /\ (inline_flag_accepted = false ->
        resolution_failed bytes_decode urlopen_read inline_flag_accepted raw ip0
        /\ control_url d = None /\ rendering_control_url d = None
        /\ has_av_transport d = false)
    /\ (forall text,
          bytes_decode raw = Ok text ->
          rx_findall true rx_location text = [] ->
          resolution_failed bytes_decode urlopen_read inline_flag_accepted raw ip0
          /\ control_url d = None /\ rendering_control_url d = None
          /\ has_av_transport d = false).
Proof.
  pose proof (init_try_cases raw ip0) as Hcases. cbv zeta in Hcases.
  pose proof (init_try_no_location raw ip0) as Hnoloc.
  pose proof (init_try_flag_rejected raw ip0) as Hrej.
  unfold DlnapDevice_init, resolution_failed.
  generalize dependent (init_try bytes_decode urlopen_read inline_flag_accepted
                          raw (init_fields ip0)).
  intros [r self] Hcases Hnoloc Hrej. cbn [fst snd] in Hcases |- *.
  exists self. split; [destruct r; reflexivity |]. split; [|split].
  - intros [e He]. destruct Hcases as [(e' & _ & Hav & Hr & Hcu) | [Hok _]];
      [|congruence].
    split; [exact Hav |]. split; [exact Hr |]. intros Hne.
    destruct Hcu as [Hcu | (xml & u & e'' & Hx & Hu & Hc & Hr' & Hflag)];
      [congruence |].
    split; [exact Hflag |].
    exists xml, e''. subst u. split; [exact Hx |]. split; assumption.
  - intros Hflag.
    destruct (Hrej Hflag) as (e & self' & Heq & H1 & H2 & H3).
    injection Heq as -> ->.
    split; [by exists e |]. by repeat split.
  - intros text Hdec Hloc.
    destruct (Hnoloc text Hdec Hloc) as (e & self' & Heq & H1 & H2 & H3).
    injection Heq as -> ->.
    split; [by exists e |]. by repeat split.
Qed.

End ResolverFacts.

Lemma c2_resolution_never_raises_witness :
  (let decode := fun _ : bytes => Ok response_with_location in
   let urlopen := fun _ : str => Ok desc_second_service_untyped in
   exists d, DlnapDevice_init decode urlopen true [] $"10.0.0.5" = Ok d
     /\ has_av_transport d = false /\ rendering_control_url d = None)
  /\ (let decode := fun _ : bytes => Ok response_without_location in
      let urlopen := fun _ : str => Ok desc_second_service_untyped in
      forall flag,
      exists d, DlnapDevice_init decode urlopen flag [] $"10.0.0.5" = Ok d
        /\ control_url d = None /\ rendering_control_url d = None
        /\ has_av_transport d = false)
  /\ (let decode := fun _ : bytes => Ok response_with_location in
      let urlopen := fun _ : str => Ok desc_second_service_untyped in
      exists d, DlnapDevice_init decode urlopen false [] $"10.0.0.5" = Ok d
        /\ control_url d = None /\ rendering_control_url d = None
        /\ has_av_transport d = false).
Proof.
  split; [|split].
  - intros decode urlopen.
    destruct (c2_resolution_never_raises decode urlopen true [] $"10.0.0.5")
      as (d & Hd & Hfail & _).
    exists d. split; [exact Hd |].
    assert (Hf : resolution_failed decode urlopen true [] $"10.0.0.5").
    { exists (KeyError $"serviceType"). vm_compute. reflexivity. }
    destruct (Hfail Hf) as (H1 & H2 & _). split; assumption.
  - intros decode urlopen flag.
    destruct (c2_resolution_never_raises decode urlopen flag [] $"10.0.0.5")
      as (d & Hd & _ & _ & Hnoloc).
    exists d. split; [exact Hd |].
    assert (Hdec : decode [] = Ok response_without_location) by reflexivity.
    assert (Hloc : rx_findall true rx_location response_without_location = []).
    { vm_compute. reflexivity. }
    destruct (Hnoloc _ Hdec Hloc) as (_ & H1 & H2 & H3). by repeat split.
  - intros decode urlopen.
    destruct (c2_resolution_never_raises decode urlopen false [] $"10.0.0.5")
      as (d & Hd & _ & Hrej & _).
    exists d. split; [exact Hd |].
    destruct (Hrej eq_refl) as (_ & H1 & H2 & H3). by repeat split.
Defined.

(** ** [_send_tcp] *)

Section TcpFacts.

Variable bytes_decode : bytes -> outcome str.

(** C4: once the socket exists, an exception of [connect], [sendall], [recv]
    or of the decoding gives the empty string as the answer, no exception
    leaves [_send_tcp] and the socket is closed; and when the parsed answer
    holds a fault description at the fault path, the description is logged
    and the parsed answer is what the caller gets. *)
Theorem c4_send_tcp_absorbs_errors (net : tcp_session) (to : str * option Z)
    (payload : str) (st : tcp_state) :
  tcp_socket net = Ok tt ->
  ((exists e, tcp_connect net = Raise e
              \/ tcp_sendall net = Raise e
              \/ tcp_recv net = Raise e
              \/ exists received, tcp_recv net = Ok received
                                  /\ bytes_decode received = Raise e) ->
   exists st', _send_tcp bytes_decode net to payload st = (Ok (Leaf []), st')
               /\ sock_closed st' = true
               /\ error_log st' = error_log st)
  /\ (forall received text err,
        tcp_connect net = Ok tt -> tcp_sendall net = Ok tt ->
        tcp_recv net = Ok received -> bytes_decode received = Ok text ->
        _xpath (_xml2dict (_unescape_xml text) true) fault_path = Ok (Some err) ->
        exists st',
          _send_tcp bytes_decode net to payload st
          = (Ok (_xml2dict (_unescape_xml text) true), st')
          /\ error_log st' = error_log st ++ [err]
          /\ sock_closed st' = true).
Proof.
  intros Hsock. split.
  - intros [e H]. unfold _send_tcp, send_tcp_try. rewrite Hsock.
    destruct (tcp_connect net) as [[]|e1]; [|eexists; repeat split].
    destruct (tcp_sendall net) as [[]|e2]; [|eexists; repeat split].
    destruct (tcp_recv net) as [received|e3]; [|eexists; repeat split].
    destruct (bytes_decode received) as [text|e4] eqn:Hdec;
      [|eexists; repeat split].
    exfalso. destruct H as [H | [H | [H | (r & Hr & Hd)]]]; try discriminate.
    injection Hr as <-. congruence.
  - intros received text err Hc Hs Hr Hd Hx.
    unfold _send_tcp, send_tcp_try. rewrite Hsock, Hc, Hs, Hr, Hd, Hx.
    eexists. repeat split.
Qed.

End TcpFacts.

(** A reply that carries a fault. *)
Definition fault_reply : str :=
  $"HTTP/1.1 500 Internal Server Error" ++ crlf ++ crlf
  ++ $"<s:Envelope><s:Body><s:Fault><detail><UPnPError><errorCode>701</errorCode><errorDescription>Transition not available</errorDescription></UPnPError></detail></s:Fault></s:Body></s:Envelope>".

Lemma c4_send_tcp_absorbs_errors_witness :
  (exists st', _send_tcp (fun _ => Ok fault_reply)
                 {| tcp_socket := Ok tt; tcp_connect := Raise OSError;
                    tcp_sendall := Ok tt; tcp_recv := Ok [] |}
                 ($"10.0.0.5", Some 80%Z) [] tcp_start = (Ok (Leaf []), st')
               /\ sock_closed st' = true /\ error_log st' = [])
  /\ (exists st', _send_tcp (fun _ => Ok fault_reply)
                 {| tcp_socket := Ok tt; tcp_connect := Ok tt;
                    tcp_sendall := Ok tt; tcp_recv := Ok [] |}
                 ($"10.0.0.5", Some 80%Z) [] tcp_start
               = (Ok (_xml2dict (_unescape_xml fault_reply) true), st')
               /\ error_log st' = [] ++ [Leaf $"Transition not available"]
               /\ sock_closed st' = true).
Proof.
  split.
  - apply (proj1 (c4_send_tcp_absorbs_errors (fun _ => Ok fault_reply)
             {| tcp_socket := Ok tt; tcp_connect := Raise OSError;
                tcp_sendall := Ok tt; tcp_recv := Ok [] |}
             ($"10.0.0.5", Some 80%Z) [] tcp_start eq_refl)).
    exists OSError. left. reflexivity.
  - apply (proj2 (c4_send_tcp_absorbs_errors (fun _ => Ok fault_reply)
             {| tcp_socket := Ok tt; tcp_connect := Ok tt;
                tcp_sendall := Ok tt; tcp_recv := Ok [] |}
             ($"10.0.0.5", Some 80%Z) [] tcp_start eq_refl)
             [] fault_reply (Leaf $"Transition not available"));
      reflexivity.
Defined.

(** ** The discovery loop *)

(** The number of devices of a list that are equal to [d]. *)
Fixpoint count_same (d : DlnapDevice) (l : list DlnapDevice) : nat :=
  match l with
  | [] => 0
  | e :: l' => (if __eq__ e d then 1 else 0) + count_same d l'
  end.

(** No two devices of the list are equal. *)
Definition distinct (l : list DlnapDevice) : Prop :=
  forall d, count_same d l <= 1.

Lemma eq_spec (a b : DlnapDevice) :
  __eq__ a b = true <-> name a = name b /\ ip a = ip b.
Proof.
  unfold __eq__. rewrite andb_true_iff, !bool_decide_eq_true. done.
Qed.

Lemma count_same_app (d : DlnapDevice) (l k : list DlnapDevice) :
  count_same d (l ++ k) = count_same d l + count_same d k.
Proof. induction l as [|e l IH]; simpl; [done | rewrite IH; lia]. Qed.

Lemma count_same_absent (d x : DlnapDevice) (l : list DlnapDevice) :
  existsb (fun e => __eq__ e d) l = false -> __eq__ d x = true ->
  count_same x l = 0.
Proof.
  intros Hex Hdx. induction l as [|e l IH]; simpl in *; [done |].
  apply orb_false_iff in Hex as [He Hl]. rewrite (IH Hl).
  destruct (__eq__ e x) eqn:Hexx; [|done].
  apply eq_spec in Hexx, Hdx. apply not_true_iff_false in He.
  exfalso. apply He. apply eq_spec. destruct Hexx, Hdx. split; congruence.
Qed.

Lemma count_same_present (d : DlnapDevice) (l : list DlnapDevice) :
  existsb (fun e => __eq__ e d) l = true -> 1 <= count_same d l.
Proof.
  induction l as [|e l IH]; simpl; [done |].
  destruct (__eq__ e d); simpl; [lia | done].
Qed.

Lemma distinct_snoc (d : DlnapDevice) (l : list DlnapDevice) :
  distinct l -> existsb (fun e => __eq__ e d) l = false -> distinct (l ++ [d]).
Proof.
  intros Hl Hex x. rewrite count_same_app. simpl.
  destruct (__eq__ d x) eqn:Hdx.
  - rewrite (count_same_absent d x l Hex Hdx). lia.
  - specialize (Hl x). lia.
Qed.

Section DiscoveryFacts.

Variable bytes_decode : bytes -> outcome str.
Variable urlopen_read : str -> outcome str.
Variable inline_flag_accepted : bool.
Variable __file__ : str.

Let loop := discover_loop bytes_decode urlopen_read inline_flag_accepted.
Let resolve := DlnapDevice_init bytes_decode urlopen_read inline_flag_accepted.

(** The loop does not touch the socket, and it only adds devices that are
    equal to none of those it has. *)
Lemma loop_invariant (name0 ip0 : str) (v : Z) (events : list loop_event)
    (c : cli) :
  let c' := (loop name0 ip0 v events c).2 in
  udp_socket c' = udp_socket c
  /\ (distinct (devices c) -> distinct (devices c'))
  /\ (forall d, count_same d (devices c) <= count_same d (devices c')).
Proof.
  unfold loop. revert c.
  induction events as [|ev events IH]; intros c; [by simpl |].
  destruct ev as [|data sender| | |e]; try by simpl.
  cbn [discover_loop].
  destruct (negb _ && negb _); [apply IH |].
  destruct (DlnapDevice_init _ _ _ data sender) as [d0|e]; [|by simpl].
  cbv zeta.
  destruct (existsb _ (devices c)) eqn:Hex; [apply IH |].
  destruct (name_matches name0 _) as [[|]|e]; [|apply IH | by simpl].
  set (d := set_ssdp_version v d0) in *.
  set (c1 := with_printed _ _).
  assert (H1 : udp_socket c1 = udp_socket c) by done.
  assert (H2 : distinct (devices c) -> distinct (devices c1)).
  { intros Hd. by apply distinct_snoc. }
  assert (H3 : forall x, count_same x (devices c) <= count_same x (devices c1)).
  { intros x. unfold c1. cbn. rewrite count_same_app. lia. }
  assert (Hgo : let c' := (discover_loop bytes_decode urlopen_read
                             inline_flag_accepted name0 ip0 v events c1).2 in
                udp_socket c' = udp_socket c
                /\ (distinct (devices c) -> distinct (devices c'))
                /\ (forall d, count_same d (devices c) <= count_same d (devices c'))).
  { destruct (IH c1) as (I1 & I2 & I3). cbv zeta. split; [congruence |].
    split; [auto |]. intros x. etrans; [apply H3 | apply I3]. }
  destruct (bool_decide (ip0 = [])); [exact Hgo |].
  destruct (has_av_transport d); [|exact Hgo].
  cbn [snd]. auto.
Qed.

Lemma loop_app (name0 ip0 : str) (v : Z) (pre post : list loop_event) (c : cli) :
  loop name0 ip0 v (pre ++ post) c =
  match loop name0 ip0 v pre c with
  | (AtDeadline, c1) => loop name0 ip0 v post c1
  | r => r
  end.
Proof.
  unfold loop. revert c. induction pre as [|ev pre IH]; intros c.
  - simpl. by destruct (discover_loop _ _ _ _ _ _ post c) as [[] ?].
  - destruct ev as [|data sender| | |e]; try by simpl.
    rewrite <- app_comm_cons. cbn [discover_loop].
    destruct (negb _ && negb _); [apply IH |].
    destruct (DlnapDevice_init _ _ _ data sender) as [d0|e]; [|done].
    cbv zeta.
    destruct (existsb _ (devices c)); [apply IH |].
    destruct (name_matches name0 _) as [[|]|e]; [|apply IH | done].
    destruct (bool_decide (ip0 = [])); [apply IH |].
    destruct (has_av_transport _); [done | apply IH].
Qed.

(** C6 (amended): two devices are equal exactly when their names and their
    ips are; the loop keeps [self.devices] free of equal devices, so that an
    identity is there at most once; and when a datagram that the loop reads
    passes the ip filter, is resolved to a device and the name filter lets
    that device through, the identity of the device is in the result exactly
    once, however many datagrams resolve to it. *)
Theorem c6_one_device_per_identity (name0 ip0 : str) (v : Z)
    (events : list loop_event) (c : cli) :
  (forall a b, __eq__ a b = true <-> name a = name b /\ ip a = ip b)
  /\ (distinct (devices c) -> distinct (devices (loop name0 ip0 v events c).2))
  /\ (forall pre data sender post c1 d0,
        events = pre ++ EvReadable data sender :: post ->
        loop name0 ip0 v pre c = (AtDeadline, c1) ->
        distinct (devices c) ->
        ip0 = [] \/ sender = ip0 ->
        resolve data sender = Ok d0 ->
        name_matches name0 (set_ssdp_version v d0) = Ok true ->
        count_same (set_ssdp_version v d0)
                   (devices (loop name0 ip0 v events c).2) = 1).
Proof.
  split; [apply eq_spec |]. split; [apply loop_invariant |].
  intros pre data sender post c1 d0 -> Hpre Hdist Hip Hres Hname.
  assert (Hd1 : distinct (devices c1)).
  { pose proof (loop_invariant name0 ip0 v pre c) as (_ & H & _).
    rewrite Hpre in H. by apply H. }
  rewrite loop_app, Hpre. set (d := set_ssdp_version v d0) in *.
  assert (Hle : forall c2, distinct (devices c2) -> 1 <= count_same d (devices c2) ->
                  count_same d (devices (loop name0 ip0 v post c2).2) = 1).
  { intros c2 Hc2 H1.
    pose proof (loop_invariant name0 ip0 v post c2) as (_ & Hdis & Hmono).
    specialize (Hdis Hc2 d). specialize (Hmono d). cbv zeta in *. lia. }
  unfold loop in *. cbn [discover_loop].
  assert (Hf : negb (bool_decide (ip0 = [])) && negb (bool_decide (sender = ip0))
               = false).
  { destruct Hip as [-> | ->]; [done |].
    rewrite (bool_decide_eq_true_2 (ip0 = ip0)) by done.
    by rewrite andb_false_r. }
  rewrite Hf. unfold resolve in Hres. rewrite Hres. cbv zeta. fold d.
  destruct (existsb _ (devices c1)) eqn:Hex.
  { apply Hle; [done |]. by apply count_same_present. }
  rewrite Hname.
  set (c2 := with_printed _ _).
  assert (Hc2 : distinct (devices c2)) by (by apply distinct_snoc).
  assert (H1 : 1 <= count_same d (devices c2)).
  { unfold c2. cbn. rewrite count_same_app. simpl.
    assert (__eq__ d d = true) as -> by (by apply eq_spec). lia. }
  assert (Hbreak : count_same d (devices c2) = 1).
  { specialize (Hc2 d). lia. }
  destruct (bool_decide (ip0 = [])); [by apply Hle |].
  destruct (has_av_transport d); [exact Hbreak | by apply Hle].
Qed.

(** C3: when the loop raises, the code after the [yield] of [_send_udp] is
    not run and the socket stays open; it is closed only when the block of
    the [with] ends without an exception. The exceptional condition that
    [select] reports is such a run. *)
Theorem c3_socket_open_after_fatal_error (name0 ip0 : str) (st : str -> str)
    (mx v : Z) (events : list loop_event) (c : cli) :
  let run := discover bytes_decode urlopen_read inline_flag_accepted __file__
               (Ok tt) (Ok tt) name0 ip0 st mx v in
  (run [EvExceptional] c).1 = Raise (Exception_ $"Getting response failed")
  /\ udp_socket (run [EvExceptional] c).2 = SocketOpen
  /\ match (run events c).1 with
     | Ok _ => udp_socket (run events c).2 = SocketClosed
     | Raise _ => udp_socket (run events c).2 = SocketOpen
     end.
Proof.
  cbv zeta. split; [done |]. split; [done |].
  unfold discover, with_cm, _send_udp. cbn [up_to_yield after_yield].
  pose proof (loop_invariant name0 ip0 v events
                (with_sent (udp_sent c ++ [(SSDP_GROUP, search_payload __file__ st mx v)])
                   (with_socket SocketOpen c))) as (Hs & _).
  unfold loop in Hs. cbv zeta in Hs.
  destruct (discover_loop _ _ _ _ _ _ events _) as [[| | |e] c'];
    cbn [fst snd] in *; done.
Qed.

(** C7: a call of [discover] that ends without an exception returns [None],
    not a list: the devices found are appended to [self.devices] and printed
    one by one. With no event before the deadline the call returns [None]
    and [self.devices] is as it was. *)
Theorem c7_discover_returns_none (udp_create udp_sendto : outcome unit)
    (name0 ip0 : str) (st : str -> str) (mx v : Z) (events : list loop_event)
    (c : cli) :
  let run := discover bytes_decode urlopen_read inline_flag_accepted __file__ in
  ((run udp_create udp_sendto name0 ip0 st mx v events c).1 = Ok PyNone
   \/ exists e,
        (run udp_create udp_sendto name0 ip0 st mx v events c).1 = Raise e)
  /\ (run (Ok tt) (Ok tt) name0 ip0 st mx v [] c).1 = Ok PyNone
  /\ devices (run (Ok tt) (Ok tt) name0 ip0 st mx v [] c).2 = devices c
  /\ (forall l,
        (run udp_create udp_sendto name0 ip0 st mx v events c).1
        <> Ok (PyList l)).
Proof.
  cbv zeta. unfold discover, with_cm, _send_udp. cbn [up_to_yield after_yield].
  destruct udp_create as [[]|e1]; [destruct udp_sendto as [[]|e0] |].
  - destruct (discover_loop _ _ _ _ _ _ events _) as [[| | |e] c'];
      cbn [fst snd]; repeat split; eauto; done.
  - cbn [fst snd]. repeat split; eauto; done.
  - cbn [fst snd]. repeat split; eauto; done.
Qed.

End DiscoveryFacts.

(** C6, as stated, fails: with the name filter [tv] two datagrams from the
    same sender are both resolved to the device named [Unknown] at that ip,
    the filter lets neither through, and the result holds that identity not
    once but never. *)
Lemma c6_name_filter_leaves_no_device :
  let decode := fun _ : bytes => Raise UnicodeDecodeError in
  let urlopen := fun _ : str => Raise OSError in
  let c0 := {| devices := []; printed := []; udp_socket := NoSocket;
               udp_sent := [] |} in
  let events := [EvReadable [] $"10.0.0.5"; EvReadable [] $"10.0.0.5"] in
  exists d,
    DlnapDevice_init decode urlopen true [] $"10.0.0.5" = Ok d
    /\ name d = Leaf $"Unknown" /\ ip d = $"10.0.0.5"
    /\ devices (discover_loop decode urlopen true $"tv" [] 1 events c0).2 = []
    /\ count_same (set_ssdp_version 1 d)
         (devices (discover decode urlopen true $"dlnap.py" (Ok tt) (Ok tt)
                     $"tv" [] (fun _ => SSDP_ALL) 3 1 events c0).2) = 0.
Proof. eexists. repeat split. Qed.

Lemma c6_one_device_per_identity_witness :
  let decode := fun _ : bytes => Raise UnicodeDecodeError in
  let urlopen := fun _ : str => Raise OSError in
  let c0 := {| devices := []; printed := []; udp_socket := NoSocket;
               udp_sent := [] |} in
  let events := [EvReadable [] $"10.0.0.5"; EvReadable [] $"10.0.0.5"] in
  count_same (set_ssdp_version 1 (init_fields $"10.0.0.5"))
    (devices (discover_loop decode urlopen true [] [] 1 events c0).2) = 1.
Proof.
  intros decode urlopen c0 events.
  apply (proj2 (proj2 (c6_one_device_per_identity decode urlopen true
                         [] [] 1 events c0))
           [EvReadable [] $"10.0.0.5"] [] $"10.0.0.5" []
           (with_printed [(0, set_ssdp_version 1 (init_fields $"10.0.0.5"))]
              (with_devices [set_ssdp_version 1 (init_fields $"10.0.0.5")] c0))
           (init_fields $"10.0.0.5")).
  - reflexivity.
  - reflexivity.
  - intros d. simpl. lia.
  - left. reflexivity.
  - reflexivity.
  - reflexivity.
Defined.

(** ** The SOAP request *)

(** The text holds only code points below 128. *)
Definition ascii_only (s : str) : Prop :=
  Forall (fun c => nat_of_ascii c < 128) s.

Lemma utf8_length_ascii (s : str) : ascii_only s -> utf8_length s = length s.
Proof.
  induction 1 as [|c s Hc _ IH]; simpl; [done |].
  apply Nat.ltb_lt in Hc. rewrite Hc, IH. done.
Qed.

Lemma ascii_only_lit_check (s : str) :
  forallb (fun c => nat_of_ascii c <? 128) s = true -> ascii_only s.
Proof.
  intros H. apply Forall_forall. intros c Hc.
  rewrite forallb_forall in H. apply Nat.ltb_lt, H. by apply list_elem_of_In.
Qed.

Lemma ascii_only_uint (u : Decimal.uint) :
  ascii_only (lit (NilEmpty.string_of_uint u)).
Proof.
  unfold ascii_only.
  induction u; simpl; [apply Forall_nil_2 | ..];
    (apply Forall_cons_2; [apply Nat.ltb_lt; reflexivity | exact IHu]).
Qed.

Lemma ascii_only_str_of_int (z : Z) : ascii_only (Py.str_of_int z).
Proof.
  unfold Py.str_of_int, NilZero.string_of_int, NilZero.string_of_uint.
  destruct (Z.to_int z) as [u|u].
  - destruct u; try apply ascii_only_uint.
    apply ascii_only_lit_check. reflexivity.
  - change (ascii_only ("-"%char :: lit match u with
                                    | Decimal.Nil => "0"
                                    | _ => NilEmpty.string_of_uint u
                                    end)).
    apply Forall_cons_2; [apply Nat.ltb_lt; reflexivity |].
    destruct u; try apply ascii_only_uint.
    apply ascii_only_lit_check. reflexivity.
Qed.

Lemma ascii_only_app (a b : str) : ascii_only a -> ascii_only b -> ascii_only (a ++ b).
Proof. apply Forall_app_2. Qed.

Lemma contains_app (a b c : str) : Py.contains (a ++ b ++ c) b = true.
Proof.
  induction a as [|x a IH].
  - rewrite app_nil_l. pose proof (startswith_refl_app b c) as H.
    destruct (b ++ c); cbn [Py.contains]; by rewrite H.
  - rewrite <- app_comm_cons. cbn [Py.contains]. rewrite IH. apply orb_true_r.
Qed.

Definition play_fields : list (str * field_value) :=
  [($"InstanceID", FInt 0); ($"Speed", FInt 1)].

Section PacketFacts.

Variable __file__ : str.
Variable str_of_dict : dict -> str.

(** C5: the body of the request of [Play] with [InstanceID] 0 and [Speed] 1
    holds the two fields in the order of insertion, and the Content-Length
    line of the packet gives the number of bytes of the body. *)
Theorem c5_play_packet (self : DlnapDevice) :
  let urn := URN_AVTransport_Fmt (Py.str_of_int (ssdp_version self)) in
  let body := _payload_from_template $"Play" play_fields urn in
  Py.contains body $"<InstanceID>0</InstanceID><Speed>1</Speed>" = true
  /\ play_packet __file__ str_of_dict self 0 =
     Py.join crlf [
       $"POST " ++ format_url str_of_dict (control_url self) ++ $" HTTP/1.1";
       $"User-Agent: " ++ __file__ ++ $"/" ++ __version__;
       $"Accept: */*";
       $"Content-Type: text/xml; charset=" ++ dq ++ $"utf-8" ++ dq;
       $"HOST: " ++ ip self ++ $":" ++ format_port (port self);
       $"Content-Length: " ++ Py.str_of_int (Z.of_nat (utf8_length body));
       $"SOAPACTION: " ++ dq ++ urn ++ $"#Play" ++ dq;
       $"Connection: close";
       [];
       body
     ].
Proof.
  cbv zeta. split.
  - unfold _payload_from_template, play_fields. cbn [fold_left format_field].
    change (Py.str_of_int 0) with ($"0"). change (Py.str_of_int 1) with ($"1").
    match goal with
    | |- Py.contains ?body _ = true =>
        set (b := body)
    end.
    set (f := $"<InstanceID>0</InstanceID><Speed>1</Speed>").
    subst b.
    change ([] ++ $"<" ++ $"InstanceID" ++ $">" ++ $"0" ++ $"</" ++ $"InstanceID" ++ $">")
      with ($"<InstanceID>0</InstanceID>").
    change ($"<InstanceID>0</InstanceID>" ++ $"<" ++ $"Speed" ++ $">" ++ $"1" ++ $"</" ++ $"Speed" ++ $">")
      with f.
    repeat match goal with
    | |- Py.contains (?a ++ f ++ ?c) f = true => apply contains_app
    | |- Py.contains (?a ++ ?b ++ ?c) f = true => rewrite (app_assoc a b c)
    end.
  - unfold play_packet, _create_packet.
    change (bool_decide ($"Play" ∈ rendering_actions)) with false. cbv iota beta.
    fold play_fields.
    rewrite utf8_length_ascii; [reflexivity |].
    unfold _payload_from_template, URN_AVTransport_Fmt.
    repeat first
      [ apply ascii_only_str_of_int
      | apply ascii_only_app
      | apply ascii_only_lit_check; vm_compute; reflexivity ].
Qed.

End PacketFacts.

(** ** The parser on well-formed documents *)


(** ** The parser on well-formed documents *)

(** Appends are associated to the right, past the conses. *)
Ltac norm_app :=
  repeat (progress (rewrite <- ?app_assoc, <- ?app_comm_cons)).

Lemma startswith_prefix (l p : str) :
  Py.startswith l p = true <-> p `prefix_of` l.
Proof.
  split.
  - intros H. exists (drop (length p) l). by apply startswith_app.
  - intros [k ->]. apply startswith_refl_app.
Qed.

Lemma endswith_suffix (l p : str) :
  Py.endswith l p = true <-> p `suffix_of` l.
Proof.
  unfold Py.endswith. rewrite startswith_prefix, suffix_prefix_reverse.
  unfold reverse. by rewrite <- !rev_alt.
Qed.

(** The closing tag the value loop waits for. *)
Definition close_tag (tag : str) : str := $"</" ++ tag ++ $">".

Definition shift (k : nat) (r : str * nat) : str * nat := (r.1, k + r.2).

Lemma shift_shift (j k : nat) (r : str * nat) :
  shift j (shift k r) = shift (j + k) r.
Proof. unfold shift. simpl. f_equal. lia. Qed.

Lemma read_value_step (tag : str) (c : ascii) (l v : str) :
  Ascii.eqb c ">" && Py.endswith (v ++ [c]) (close_tag tag) = false ->
  read_value tag (c :: l) v = shift 1 (read_value tag l (v ++ [c])).
Proof.
  intros H. cbn [read_value]. fold (close_tag tag). rewrite H.
  by destruct (read_value tag l (v ++ [c])).
Qed.

(** Characters that are not [>] are passed. *)
Lemma scan_not_gt (tag w l v : str) :
  ">"%char ∉ w ->
  read_value tag (w ++ l) v = shift (length w) (read_value tag l (v ++ w)).
Proof.
  revert v. induction w as [|x w IH]; intros v Hw.
  - rewrite app_nil_r. cbn [app]. by destruct (read_value tag l v).
  - apply not_elem_of_cons in Hw as [Hx Hw].
    rewrite <- app_comm_cons, read_value_step.
    + rewrite IH by done. rewrite shift_shift, <- app_assoc. reflexivity.
    + apply andb_false_iff. left. apply Ascii.eqb_neq. congruence.
Qed.

(** Text in which no [<] was met yet is passed. *)
Lemma scan_no_lt (tag t2 t1 l : str) :
  "<"%char ∉ t1 ++ t2 ->
  read_value tag (t2 ++ l) t1 = shift (length t2) (read_value tag l (t1 ++ t2)).
Proof.
  revert t1. induction t2 as [|x t2 IH]; intros t1 Ht.
  - rewrite app_nil_r. cbn [app]. by destruct (read_value tag l t1).
  - rewrite <- app_comm_cons, read_value_step.
    + rewrite IH by (by rewrite <- app_assoc).
      rewrite shift_shift, <- app_assoc. reflexivity.
    + apply andb_false_iff. right. apply not_true_iff_false.
      rewrite endswith_suffix. intros [a Ha]. apply Ht.
      rewrite (cons_middle x t1 t2), app_assoc, Ha. unfold close_tag.
      set_solver.
Qed.

(** After a [<], text without [<] that does not start with the rest of the
    closing tag is passed. *)
Lemma scan_chunk (tag w2 w1 v l : str) :
  "<"%char ∉ tag ->
  "<"%char ∉ w1 ++ w2 ->
  ~ ($"/" ++ tag ++ $">") `prefix_of` (w1 ++ w2) ->
  read_value tag (w2 ++ l) (v ++ "<"%char :: w1)
  = shift (length w2) (read_value tag l (v ++ "<"%char :: w1 ++ w2)).
Proof.
  intros Htag. revert w1. induction w2 as [|x w2 IH]; intros w1 Hlt Hpre.
  - rewrite !app_nil_r. cbn [app]. by destruct (read_value tag l _).
  - rewrite <- app_comm_cons, read_value_step.
    + rewrite <- app_assoc. cbn [app].
      rewrite (IH (w1 ++ [x])); rewrite <- ?app_assoc; try done.
    + apply andb_false_iff. right. apply not_true_iff_false.
      rewrite endswith_suffix. intros [a Ha]. apply Hpre.
      rewrite <- app_assoc in Ha. cbn [app] in Ha.
      unfold close_tag in Ha. cbn [lit String.list_ascii_of_string app] in Ha.
      apply not_elem_of_app_cons_inv_r in Ha as (_ & _ & Ha).
      * exists w2. rewrite (cons_middle x w1 w2), app_assoc, Ha. done.
      * set_solver.
      * rewrite (cons_middle x w1 w2), app_assoc in Hlt. set_solver.
Qed.

Lemma scan_lt (tag l v : str) :
  read_value tag ("<"%char :: l) v
  = shift 1 (read_value tag l (v ++ ["<"%char])).
Proof. by apply read_value_step. Qed.

Lemma drop_last_app (k : nat) (a b : str) :
  length b = k -> Py.drop_last k (a ++ b) = a.
Proof.
  intros <-. unfold Py.drop_last. rewrite length_app.
  replace (length a + length b - length b) with (length a) by lia.
  by rewrite take_app_length.
Qed.

(** The closing tag ends the loop. *)
Lemma scan_close (tag v rest : str) :
  ">"%char ∉ tag ->
  read_value tag ("/"%char :: tag ++ ">"%char :: rest) (v ++ ["<"%char])
  = (v ++ ["<"%char], length tag + 1).
Proof.
  intros Htag.
  change ("/"%char :: tag ++ ">"%char :: rest)
    with (("/"%char :: tag) ++ ">"%char :: rest).
  rewrite scan_not_gt by (by apply not_elem_of_cons).
  cbn [read_value]. norm_app. rewrite app_nil_l.
  assert (Hend : Py.endswith (v ++ "<"%char :: "/"%char :: tag ++ [">"%char])
                   ($"</" ++ tag ++ $">") = true).
  { apply endswith_suffix. by exists v. }
  rewrite Hend. rewrite Ascii.eqb_refl. cbn [andb]. unfold shift. cbn [fst snd].
  f_equal; [|simpl; lia].
  rewrite (cons_middle "<"%char v), app_assoc. apply drop_last_app.
  rewrite length_cons, length_app. simpl. lia.
Qed.

(** A text made of tags, each followed by text without [<], none of the tags
    being [bad]. *)
Inductive tagged (bad : str) : str -> Prop :=
| tagged_nil : tagged bad []
| tagged_cons (inner t s : str) :
    "<"%char ∉ inner -> ">"%char ∉ inner -> inner <> bad -> "<"%char ∉ t ->
    tagged bad s ->
    tagged bad ("<"%char :: inner ++ ">"%char :: t ++ s).

Lemma tagged_app (bad s1 s2 : str) :
  tagged bad s1 -> tagged bad s2 -> tagged bad (s1 ++ s2).
Proof.
  induction 1 as [|inner t s H1 H2 H3 H4 _ IH]; intros Hs2; [done |].
  rewrite <- app_comm_cons, <- app_assoc. cbn [app]. rewrite <- app_assoc.
  constructor; auto.
Qed.

Lemma tagged_snoc_text (bad s t : str) :
  tagged bad s -> s <> [] -> "<"%char ∉ t -> tagged bad (s ++ t).
Proof.
  induction 1 as [|inner t0 s H1 H2 H3 H4 Hs IH]; intros Hne Ht; [done |].
  rewrite <- app_comm_cons, <- app_assoc. cbn [app]. rewrite <- app_assoc.
  destruct s as [|c s].
  - rewrite app_nil_l. rewrite <- (app_nil_r (t0 ++ t)).
    apply tagged_cons; [done | done | done | | apply tagged_nil].
    by apply not_elem_of_app.
  - constructor; auto.
Qed.

Lemma tagged_one (bad inner : str) :
  "<"%char ∉ inner -> ">"%char ∉ inner -> inner <> bad ->
  tagged bad ("<"%char :: inner ++ [">"%char]).
Proof.
  intros. change [">"%char] with (">"%char :: [] ++ []).
  apply tagged_cons; [done | done | done | apply not_elem_of_nil | apply tagged_nil].
Qed.

Lemma scan_tagged (tag s : str) :
  "<"%char ∉ tag -> ">"%char ∉ tag ->
  tagged ($"/" ++ tag) s ->
  forall v l, read_value tag (s ++ l) v
              = shift (length s) (read_value tag l (v ++ s)).
Proof.
  intros Hlt Hgt. induction 1 as [|inner t s H1 H2 H3 H4 _ IH]; intros v l.
  - rewrite app_nil_r. cbn [app]. by destruct (read_value tag l v).
  - set (w := inner ++ ">"%char :: t).
    assert (E1 : ("<"%char :: inner ++ ">"%char :: t ++ s) ++ l
                 = "<"%char :: w ++ s ++ l).
    { unfold w. by norm_app. }
    assert (E2 : v ++ "<"%char :: inner ++ ">"%char :: t ++ s
                 = (v ++ "<"%char :: [] ++ w) ++ s).
    { unfold w. by norm_app. }
    assert (Hw : "<"%char ∉ [] ++ w).
    { unfold w. cbn [app]. apply not_elem_of_app. split; [done |].
      apply not_elem_of_cons. split; [done | done]. }
    rewrite E1, E2, scan_lt.
    rewrite (scan_chunk tag w [] v (s ++ l) Hlt Hw).
    + rewrite IH, !shift_shift. cbn [app]. f_equal.
      unfold w. cbn [length]. rewrite !length_app. cbn [length].
      rewrite !length_app. lia.
    + cbn [app]. intros [k Hk]. unfold w in Hk. rewrite <- !app_assoc in Hk.
      cbn [lit String.list_ascii_of_string app] in Hk.
      change ("/"%char :: tag ++ ">"%char :: k)
        with (("/"%char :: tag) ++ ">"%char :: k) in Hk.
      apply not_elem_of_app_cons_inv_l in Hk as (Hk & _);
        [by apply H3 | by apply not_elem_of_cons | done].
Qed.

(** The value loop on the text of an element: text without [<], then tags
    other than the closing tag of the element, then that closing tag. *)
Lemma read_value_element (tag t0 s rest : str) :
  "<"%char ∉ tag -> ">"%char ∉ tag ->
  "<"%char ∉ t0 -> tagged ($"/" ++ tag) s ->
  read_value tag (t0 ++ s ++ close_tag tag ++ rest) []
  = ((t0 ++ s) ++ ["<"%char], length (t0 ++ s) + (length tag + 2)).
Proof.
  intros Hlt Hgt Ht0 Hs.
  rewrite (scan_no_lt tag t0 []) by done. rewrite app_nil_l.
  rewrite scan_tagged by done.
  assert (E : close_tag tag ++ rest
               = "<"%char :: "/"%char :: tag ++ ">"%char :: rest).
  { unfold close_tag. cbn [lit String.list_ascii_of_string]. by norm_app. }
  rewrite E, scan_lt, scan_close by done. unfold shift. cbn [fst snd].
  f_equal. rewrite length_app. lia.
Qed.

(** *** Documents *)

(** An element with text, or with child elements. [lead] is the white space
    before the opening tag, [attrs] what stands between the name and the
    [>] of the opening tag, [trail] the white space before the closing tag
    of an element with children. *)
Inductive elem :=
| Text (lead tag attrs text : str)
| Node (lead tag attrs : str) (kids : list elem) (trail : str).

Definition tag_of (e : elem) : str :=
  match e with
  | Text _ tag _ _ => tag
  | Node _ tag _ _ _ => tag
  end.

Definition lead_of (e : elem) : str :=
  match e with
  | Text lead _ _ _ => lead
  | Node lead _ _ _ _ => lead
  end.

(** The text of an element from its opening tag on. *)
Fixpoint core (e : elem) : str :=
  match e with
  | Text _ tag attrs text =>
      $"<" ++ tag ++ attrs ++ $">" ++ text ++ close_tag tag
  | Node _ tag attrs kids trail =>
      $"<" ++ tag ++ attrs ++ $">"
      ++ concat (map (fun k => lead_of k ++ core k) kids)
      ++ trail ++ close_tag tag
  end.

Definition render (e : elem) : str := lead_of e ++ core e.
Definition render_forest (es : list elem) : str := concat (map render es).

(** What stands between the tags of an element. *)
Definition body_of (e : elem) : str :=
  match e with
  | Text _ _ _ text => text
  | Node _ _ _ kids trail => render_forest kids ++ trail
  end.

(** All the tag names of an element and of the elements inside it. *)
Fixpoint tags_of (e : elem) : list str :=
  match e with
  | Text _ tag _ _ => [tag]
  | Node _ tag _ kids _ => tag :: concat (map tags_of kids)
  end.

Definition blank (ws : str) : bool := forallb Py.isspace ws.

Definition name_char (c : ascii) : bool :=
  negb (Py.isspace c) && negb (bool_decide (c ∈ $"<>/@")).

(** A tag name: not empty, without white space and without the characters
    that the parser or the path syntax give a meaning to, and not starting
    with a question mark. *)
Definition is_name (tag : str) : bool :=
  match tag with
  | [] => false
  | c :: _ => negb (Ascii.eqb c "?") && forallb name_char tag
  end.

(** What may follow the name in an opening tag: nothing, or a blank and
    attributes without [<] and [>] that do not make the tag self-closing. *)
Definition attrs_ok (attrs : str) : bool :=
  match attrs with
  | [] => true
  | c :: a =>
      Ascii.eqb c " " && negb (bool_decide ("<"%char ∈ a))
      && negb (bool_decide (">"%char ∈ a)) && negb (bool_decide (a = $"/"))
  end.

(** The documents the parser is followed on: names and attributes as above,
    white space only between the elements, text without [<], at least one
    child in an element with children, and no element inside an element of
    the same name. *)
Fixpoint well_formed (e : elem) : bool :=
  match e with
  | Text lead tag attrs text =>
      blank lead && is_name tag && attrs_ok attrs
      && negb (bool_decide ("<"%char ∈ text))
  | Node lead tag attrs kids trail =>
      blank lead && is_name tag && attrs_ok attrs && blank trail
      && negb (bool_decide (kids = []))
      && forallb well_formed kids
      && negb (bool_decide (tag ∈ concat (map tags_of kids)))
  end.

(** What an element adds to the list under its tag: nothing for text that is
    empty once trimmed, the trimmed text, or the dictionary of the children. *)
Fixpoint expected (e : elem) : option node :=
  match e with
  | Text _ _ _ text =>
      match Py.strip text with
      | [] => None
      | _ :: _ => Some (Leaf (Py.strip (Py.strip text)))
      end
  | Node _ _ _ kids _ =>
      Some (Dict (fold_left
                    (fun d k =>
                       let d := dict_touch (tag_of k) d in
                       match expected k with
                       | Some v => dict_append (tag_of k) v d
                       | None => d
                       end)
                    kids ∅))
  end.

Definition add_elem (d : dict) (k : elem) : dict :=
  let d := dict_touch (tag_of k) d in
  match expected k with
  | Some v => dict_append (tag_of k) v d
  | None => d
  end.

Definition expected_dict (es : list elem) (d : dict) : dict :=
  fold_left add_elem es d.





(** *** Facts about the string primitives *)

Lemma read_tag_name (tag l acc : str) :
  " "%char ∉ tag -> ">"%char ∉ tag ->
  read_tag (tag ++ l) false acc
  = ((read_tag l false (acc ++ tag)).1,
     length tag + (read_tag l false (acc ++ tag)).2).
Proof.
  revert acc. induction tag as [|c tag IH]; intros acc Hsp Hgt.
  - rewrite app_nil_r. cbn [app length]. by destruct (read_tag l false acc).
  - apply not_elem_of_cons in Hsp as [Hc1 Hsp].
    apply not_elem_of_cons in Hgt as [Hc2 Hgt].
    rewrite <- app_comm_cons. cbn [read_tag].
    assert (Ascii.eqb c ">" = false) as -> by (apply Ascii.eqb_neq; congruence).
    assert (Ascii.eqb c " " = false) as -> by (apply Ascii.eqb_neq; congruence).
    rewrite IH by done. rewrite <- app_assoc. cbn [app fst snd length].
    done.
Qed.

Lemma read_tag_attrs (a l acc : str) :
  ">"%char ∉ a ->
  read_tag (a ++ ">"%char :: l) true acc = (acc, length a).
Proof.
  induction a as [|c a IH]; intros Hgt; [done |].
  apply not_elem_of_cons in Hgt as [Hc Hgt].
  rewrite <- app_comm_cons. cbn [read_tag].
  assert (Ascii.eqb c ">" = false) as -> by (apply Ascii.eqb_neq; congruence).
  destruct (Ascii.eqb c " "); by rewrite IH.
Qed.

Lemma attrs_ok_spec (attrs : str) :
  attrs_ok attrs = true ->
  "<"%char ∉ attrs /\ ">"%char ∉ attrs
  /\ (attrs = [] \/ exists a, attrs = " "%char :: a /\ a <> $"/").
Proof.
  destruct attrs as [|c a]; simpl.
  - intros _. split; [apply not_elem_of_nil |].
    split; [apply not_elem_of_nil | by left].
  - rewrite !andb_true_iff, !negb_true_iff, !bool_decide_eq_false.
    intros [[[Hc H1] H2] H3]. apply Ascii.eqb_eq in Hc as ->.
    split; [by apply not_elem_of_cons |].
    split; [by apply not_elem_of_cons |]. right. eauto.
Qed.

Lemma read_tag_open (tag attrs l : str) :
  " "%char ∉ tag -> ">"%char ∉ tag -> attrs_ok attrs = true ->
  read_tag (tag ++ attrs ++ ">"%char :: l) false []
  = (tag, length tag + length attrs).
Proof.
  intros Hsp Hgt Hattrs. rewrite read_tag_name by done. rewrite app_nil_l.
  apply attrs_ok_spec in Hattrs as (_ & Hgt' & [-> | (a & -> & _)]).
  - cbn [app read_tag]. by rewrite Ascii.eqb_refl.
  - apply not_elem_of_cons in Hgt' as [_ Hgt'].
    rewrite <- app_comm_cons. cbn [read_tag Ascii.eqb Bool.eqb].
    rewrite read_tag_attrs by done. done.
Qed.

Lemma blank_cons (c : ascii) (ws : str) :
  blank (c :: ws) = true <-> Py.isspace c = true /\ blank ws = true.
Proof. unfold blank. simpl. apply andb_true_iff. Qed.

Lemma lstrip_blank (ws l : str) :
  blank ws = true -> Py.lstrip (ws ++ l) = Py.lstrip l.
Proof.
  induction ws as [|c ws IH]; [done |].
  intros [Hc Hws]%blank_cons. cbn [app Py.lstrip]. rewrite Hc. by apply IH.
Qed.

Lemma blank_rev (ws : str) : blank (rev ws) = blank ws.
Proof.
  unfold blank. induction ws as [|c ws IH]; [done |].
  simpl. rewrite forallb_app, IH. simpl. rewrite andb_true_r. apply andb_comm.
Qed.

Lemma rstrip_blank (l ws : str) :
  blank ws = true -> Py.rstrip (l ++ ws) = Py.rstrip l.
Proof.
  intros Hws. unfold Py.rstrip. rewrite rev_app_distr.
  rewrite lstrip_blank; [done |]. by rewrite blank_rev.
Qed.

Lemma rstrip_snoc_nonspace (l : str) (c : ascii) :
  Py.isspace c = false -> Py.rstrip (l ++ [c]) = l ++ [c].
Proof.
  intros Hc. unfold Py.rstrip. rewrite rev_app_distr. cbn [rev app].
  rewrite lstrip_id by done. cbn [rev]. by rewrite rev_involutive.
Qed.

(** A text that starts with [<] and ends with [>]. *)
Definition bracketed (x : str) : Prop :=
  exists m, x = "<"%char :: m ++ [">"%char].

Lemma strip_bracketed (ws x ws' : str) :
  blank ws = true -> blank ws' = true -> bracketed x ->
  Py.strip (ws ++ x ++ ws') = x.
Proof.
  intros Hws Hws' [m ->]. unfold Py.strip.
  rewrite lstrip_blank by done. rewrite <- app_comm_cons, lstrip_id by done.
  rewrite app_comm_cons, rstrip_blank by done.
  rewrite app_comm_cons. by apply rstrip_snoc_nonspace.
Qed.

Lemma strip_bracketed_id (x : str) : bracketed x -> Py.strip x = x.
Proof.
  intros H. rewrite <- (app_nil_r x) at 1.
  by apply (strip_bracketed [] x []).
Qed.

Lemma bracketed_app (x w y : str) :
  bracketed x -> bracketed y -> bracketed (x ++ w ++ y).
Proof.
  intros [m ->] [m' ->].
  exists (m ++ ">"%char :: w ++ "<"%char :: m'). by norm_app.
Qed.

Lemma bracketed_nonempty (x : str) : bracketed x -> x <> [].
Proof. by intros [m ->]. Qed.

Lemma strip_no_lt (t : str) : "<"%char ∉ t -> "<"%char ∉ Py.strip t.
Proof.
  assert (Hl : forall l, "<"%char ∉ l -> "<"%char ∉ Py.lstrip l).
  { induction l as [|c l IH]; [done |]. intros Hc. cbn [Py.lstrip].
    destruct (Py.isspace c); [|done].
    apply IH. by apply not_elem_of_cons in Hc as [_ ?]. }
  intros Ht. unfold Py.strip, Py.rstrip.
  rewrite rev_alt. fold (reverse (Py.lstrip (rev (Py.lstrip t)))).
  rewrite elem_of_reverse. apply Hl.
  rewrite rev_alt. fold (reverse (Py.lstrip t)). rewrite elem_of_reverse.
  by apply Hl.
Qed.

Lemma strip_blank (ws : str) : blank ws = true -> Py.strip ws = [].
Proof.
  intros Hws. unfold Py.strip. rewrite <- (app_nil_r ws).
  by rewrite lstrip_blank.
Qed.

Lemma names_strip (tag : str) : is_name tag = true -> Py.strip tag = tag.
Proof.
  assert (Hl : forall l, forallb name_char l = true -> Py.lstrip l = l).
  { intros [|c l]; [done |]. simpl. unfold name_char at 1.
    rewrite !andb_true_iff, negb_true_iff. intros [[Hc _] _]. by rewrite Hc. }
  assert (Hr : forall l, forallb name_char (rev l) = forallb name_char l).
  { induction l as [|c l IH]; [done |]. simpl.
    rewrite forallb_app, IH. simpl. rewrite andb_true_r. apply andb_comm. }
  destruct tag as [|c tag]; [done |]. unfold is_name.
  rewrite andb_true_iff. intros [_ H]. unfold Py.strip, Py.rstrip.
  rewrite (Hl _ H). rewrite Hl by (by rewrite Hr). apply rev_involutive.
Qed.

Lemma name_chars (tag : str) (c : ascii) :
  is_name tag = true -> c ∈ $" <>/@" -> c ∉ tag.
Proof.
  destruct tag as [|c0 tag]; [done |]. unfold is_name.
  rewrite andb_true_iff. intros [_ H] Hc Hin.
  rewrite forallb_forall in H. apply list_elem_of_In, H in Hin.
  unfold name_char in Hin.
  apply andb_true_iff in Hin as [H1 H2].
  apply negb_true_iff in H1, H2. apply bool_decide_eq_false in H2.
  cbn [lit String.list_ascii_of_string] in Hc.
  apply elem_of_cons in Hc as [-> | Hc]; [done |]. by apply H2.
Qed.

Lemma name_first (tag : str) :
  is_name tag = true ->
  exists c t, tag = c :: t /\ c <> "?"%char /\ c <> "/"%char.
Proof.
  intros H. pose proof (name_chars tag "/" H) as Hs.
  destruct tag as [|c t]; [done |]. exists c, t. split; [done |].
  unfold is_name in H. apply andb_true_iff in H as [H _].
  apply negb_true_iff, Ascii.eqb_neq in H. split; [done |].
  intros ->. apply Hs; [|by left].
  cbn [lit String.list_ascii_of_string]. set_solver.
Qed.

(** *** [_get_tag_value] on an element *)

(** An element as it stands in the text, followed by [rest]. *)
Definition elem_text (tag attrs body rest : str) : str :=
  "<"%char :: tag ++ attrs ++ ">"%char :: body ++ close_tag tag ++ rest.

Lemma startswith_app_same (p a b : str) :
  Py.startswith (p ++ a) (p ++ b) = Py.startswith a b.
Proof.
  induction p as [|c p IH]; [done |].
  cbn [app Py.startswith]. by rewrite Ascii.eqb_refl, IH.
Qed.

Lemma not_self_closing (tag attrs l : str) :
  attrs_ok attrs = true ->
  Py.startswith ("<"%char :: tag ++ attrs ++ ">"%char :: l)
                ($"<" ++ tag ++ $" />") = false.
Proof.
  intros Hattrs.
  change ("<"%char :: tag ++ attrs ++ ">"%char :: l)
    with (("<"%char :: tag) ++ attrs ++ ">"%char :: l).
  change ($"<" ++ tag ++ $" />") with (("<"%char :: tag) ++ $" />").
  rewrite startswith_app_same.
  apply attrs_ok_spec in Hattrs as (_ & Hgt & [-> | (a & -> & Ha)]);
    [reflexivity |].
  apply not_elem_of_cons in Hgt as [_ Hgt].
  apply not_true_iff_false. rewrite startswith_prefix. intros [k Hk].
  cbn [app lit String.list_ascii_of_string] in Hk.
  destruct a as [|c a]; [discriminate |].
  destruct a as [|c' a]; cbn [app] in Hk.
  - injection Hk as -> _. by apply Ha.
  - injection Hk as _ -> _. apply Hgt. set_solver.
Qed.

Lemma startswith_two (a b c d : ascii) (l : str) :
  Py.startswith (a :: b :: l) [c; d] = Ascii.eqb c a && Ascii.eqb d b.
Proof. simpl. by rewrite andb_true_r. Qed.

Lemma gtv_elem (tag attrs t0 s rest : str) :
  is_name tag = true -> attrs_ok attrs = true ->
  "<"%char ∉ t0 -> tagged ($"/" ++ tag) s ->
  Py.strip (elem_text tag attrs (t0 ++ s) rest)
  = elem_text tag attrs (t0 ++ s) rest ->
  _get_tag_value (elem_text tag attrs (t0 ++ s) rest) 0 = (tag, t0 ++ s, rest).
Proof.
  intros Hname Hattrs Ht0 Hs Hstrip.
  pose proof (name_chars tag " " Hname ltac:(set_solver)) as Hsp.
  pose proof (name_chars tag "<" Hname ltac:(set_solver)) as Hlt.
  pose proof (name_chars tag ">" Hname ltac:(set_solver)) as Hgt.
  destruct (name_first tag Hname) as (c & t & Etag & Hq & Hsl).
  unfold _get_tag_value. rewrite Hstrip.
  set (x := elem_text tag attrs (t0 ++ s) rest).
  assert (Hskip : skip_decl x 0 = 0).
  { unfold skip_decl, x, elem_text. rewrite drop_0, Etag.
    cbn [app lit String.list_ascii_of_string]. rewrite startswith_two.
    assert (Ascii.eqb "?" c = false) as -> by (apply Ascii.eqb_neq; congruence).
    by rewrite andb_false_r. }
  rewrite Hskip, drop_0.
  assert (H1 : Py.startswith x $"</" = false).
  { unfold x, elem_text. rewrite Etag.
    cbn [app lit String.list_ascii_of_string]. rewrite startswith_two.
    assert (Ascii.eqb "/" c = false) as -> by (apply Ascii.eqb_neq; congruence).
    by rewrite andb_false_r. }
  rewrite H1.
  assert (H2 : Py.startswith x $"<" = true) by done.
  rewrite H2. cbn [negb].
  assert (Hx1 : drop (0 + 1) x = tag ++ attrs ++ ">"%char :: (t0 ++ s) ++ close_tag tag ++ rest)
    by done.
  rewrite Hx1, read_tag_open by done.
  assert (Hsc : Py.startswith x ($"<" ++ tag ++ $" />") = false)
    by (by apply not_self_closing).
  rewrite Hsc.
  assert (Hx2 : drop (0 + 1 + (length tag + length attrs) + 1) x
                = t0 ++ s ++ close_tag tag ++ rest).
  { assert (E : x = ("<"%char :: tag ++ attrs ++ [">"%char])
                      ++ t0 ++ s ++ close_tag tag ++ rest).
    { unfold x, elem_text. by norm_app. }
    rewrite E. apply drop_app_length'.
    cbn [length]. rewrite !length_app. cbn [length]. lia. }
  rewrite Hx2, read_value_element by done.
  rewrite drop_last_app by done. rewrite names_strip by done.
  f_equal.
  assert (E : x = ("<"%char :: tag ++ attrs ++ ">"%char :: (t0 ++ s)
                     ++ close_tag tag) ++ rest).
  { unfold x, elem_text. by norm_app. }
  rewrite E. apply drop_app_length'.
  unfold close_tag. cbn [length]. rewrite !length_app. cbn [length].
  rewrite !length_app. simpl. lia.
Qed.

(** *** The text of a well-formed element *)

(** Induction on elements, with the property for all the children. *)
Fixpoint elem_nested_ind (P : elem -> Prop)
    (HText : forall lead tag attrs text, P (Text lead tag attrs text))
    (HNode : forall lead tag attrs kids trail,
        Forall P kids -> P (Node lead tag attrs kids trail))
    (e : elem) {struct e} : P e :=
  match e with
  | Text lead tag attrs text => HText lead tag attrs text
  | Node lead tag attrs kids trail =>
      HNode lead tag attrs kids trail
        ((fix go (ks : list elem) : Forall P ks :=
            match ks with
            | [] => @List.Forall_nil _ P
            | k :: ks' =>
                @List.Forall_cons _ P k ks' (elem_nested_ind P HText HNode k) (go ks')
            end) kids)
  end.

Lemma blank_no_lt (ws : str) : blank ws = true -> "<"%char ∉ ws.
Proof.
  induction ws as [|c ws IH]; [intros _; apply not_elem_of_nil |].
  intros [Hc Hws]%blank_cons. apply not_elem_of_cons. split; [|by apply IH].
  intros <-. done.
Qed.

Lemma core_elem_text (e : elem) :
  core e = elem_text (tag_of e) match e with
                                | Text _ _ attrs _ => attrs
                                | Node _ _ attrs _ _ => attrs
                                end (body_of e) [].
Proof.
  destruct e as [lead tag attrs text | lead tag attrs kids trail];
    unfold elem_text; cbn [core tag_of body_of lit String.list_ascii_of_string];
    unfold render_forest, render; by norm_app; rewrite ?app_nil_r.
Qed.

Lemma core_bracketed (e : elem) : bracketed (core e).
Proof.
  destruct e as [lead tag attrs text | lead tag attrs kids trail];
    cbn [core]; unfold close_tag; cbn [lit String.list_ascii_of_string].
  - exists (tag ++ attrs ++ ">"%char :: text ++ "<"%char :: "/"%char :: tag).
    by norm_app.
  - exists (tag ++ attrs ++ ">"%char
            :: concat (map (fun k => lead_of k ++ core k) kids)
            ++ trail ++ "<"%char :: "/"%char :: tag).
    by norm_app.
Qed.

Lemma well_formed_text (lead tag attrs text : str) :
  well_formed (Text lead tag attrs text) = true ->
  blank lead = true /\ is_name tag = true /\ attrs_ok attrs = true
  /\ "<"%char ∉ text.
Proof.
  cbn [well_formed]. rewrite !andb_true_iff, negb_true_iff, bool_decide_eq_false.
  tauto.
Qed.

Lemma well_formed_node (lead tag attrs : str) (kids : list elem) (trail : str) :
  well_formed (Node lead tag attrs kids trail) = true ->
  blank lead = true /\ is_name tag = true /\ attrs_ok attrs = true
  /\ blank trail = true /\ kids <> []
  /\ Forall (fun k => well_formed k = true) kids
  /\ tag ∉ concat (map tags_of kids).
Proof.
  cbn [well_formed].
  rewrite !andb_true_iff, !negb_true_iff, !bool_decide_eq_false.
  rewrite forallb_forall, Forall_forall.
  setoid_rewrite list_elem_of_In. tauto.
Qed.

Lemma well_formed_lead (e : elem) :
  well_formed e = true -> blank (lead_of e) = true.
Proof.
  destruct e; [intros H%well_formed_text | intros H%well_formed_node]; tauto.
Qed.

Lemma open_tag_inner (tag attrs bad_tag : str) :
  is_name tag = true -> attrs_ok attrs = true ->
  "<"%char ∉ tag ++ attrs /\ ">"%char ∉ tag ++ attrs
  /\ tag ++ attrs <> $"/" ++ bad_tag.
Proof.
  intros Hname Hattrs.
  pose proof (name_chars tag "<" Hname ltac:(set_solver)) as Hlt.
  pose proof (name_chars tag ">" Hname ltac:(set_solver)) as Hgt.
  destruct (name_first tag Hname) as (c & t & -> & _ & Hsl).
  apply attrs_ok_spec in Hattrs as (H1 & H2 & _).
  split; [by apply not_elem_of_app |]. split; [by apply not_elem_of_app |].
  cbn [app lit String.list_ascii_of_string]. congruence.
Qed.

Lemma close_tag_inner (tag bad_tag : str) :
  is_name tag = true -> tag <> bad_tag ->
  "<"%char ∉ $"/" ++ tag /\ ">"%char ∉ $"/" ++ tag
  /\ $"/" ++ tag <> $"/" ++ bad_tag.
Proof.
  intros Hname Hne.
  pose proof (name_chars tag "<" Hname ltac:(set_solver)) as Hlt.
  pose proof (name_chars tag ">" Hname ltac:(set_solver)) as Hgt.
  cbn [app lit String.list_ascii_of_string].
  split; [by apply not_elem_of_cons |]. split; [by apply not_elem_of_cons |].
  congruence.
Qed.

(** The text of a well-formed element is made of tags, and the closing tag
    of a name that is not in the element is not among them. *)
Lemma render_tagged (bad_tag : str) (e : elem) :
  well_formed e = true -> bad_tag ∉ tags_of e ->
  tagged ($"/" ++ bad_tag) (core e)
  /\ forall p, tagged ($"/" ++ bad_tag) p -> p <> [] ->
               tagged ($"/" ++ bad_tag) (p ++ render e).
Proof.
  induction e as [lead tag attrs text | lead tag attrs kids trail IH]
    using elem_nested_ind; intros Hwf Hbad.
  - apply well_formed_text in Hwf as (Hlead & Hname & Hattrs & Htext).
    cbn [tags_of] in Hbad. apply not_elem_of_cons in Hbad as [Hbad _].
    destruct (open_tag_inner tag attrs bad_tag Hname Hattrs) as (O1 & O2 & O3).
    destruct (close_tag_inner tag bad_tag Hname ltac:(congruence)) as (C1 & C2 & C3).
    assert (Hcore : tagged ($"/" ++ bad_tag) (core (Text lead tag attrs text))).
    { assert (E : core (Text lead tag attrs text)
                  = ("<"%char :: (tag ++ attrs) ++ ">"%char :: text ++ [])
                      ++ ("<"%char :: ($"/" ++ tag) ++ [">"%char])).
      { cbn [core]. unfold close_tag. cbn [lit String.list_ascii_of_string].
        rewrite app_nil_r. by norm_app. }
      rewrite E. apply tagged_app; [|by apply tagged_one].
      apply tagged_cons; [done | done | done | done | apply tagged_nil]. }
    split; [done |]. intros p Hp Hne. unfold render. cbn [lead_of].
    rewrite app_assoc. apply tagged_app; [|done].
    apply tagged_snoc_text; [done | done | by apply blank_no_lt].
  - apply well_formed_node in Hwf
      as (Hlead & Hname & Hattrs & Htrail & Hkids & Hwfk & Hnest).
    cbn [tags_of] in Hbad. apply not_elem_of_cons in Hbad as [Hbad Hbadk].
    destruct (open_tag_inner tag attrs bad_tag Hname Hattrs) as (O1 & O2 & O3).
    destruct (close_tag_inner tag bad_tag Hname ltac:(congruence)) as (C1 & C2 & C3).
    assert (Hforest : forall p, tagged ($"/" ++ bad_tag) p -> p <> [] ->
               tagged ($"/" ++ bad_tag)
                 (p ++ concat (map (fun k => lead_of k ++ core k) kids))).
    { clear Hkids Hnest. induction kids as [|k kids IHk]; intros p Hp Hne.
      - cbn [map concat]. by rewrite app_nil_r.
      - cbn [map concat]. rewrite !app_assoc, <- (app_assoc p).
        apply Forall_cons in IH as [IH1 IH2].
        apply Forall_cons in Hwfk as [Hwf1 Hwf2].
        cbn [map concat] in Hbadk. apply not_elem_of_app in Hbadk as [Hb1 Hb2].
        apply IHk; try done.
        + apply (IH1 Hwf1 Hb1); done.
        + destruct p; [done |]. done. }
    assert (Hcore : tagged ($"/" ++ bad_tag) (core (Node lead tag attrs kids trail))).
    { assert (E : core (Node lead tag attrs kids trail)
                  = ((("<"%char :: (tag ++ attrs) ++ [">"%char])
                        ++ concat (map (fun k => lead_of k ++ core k) kids))
                       ++ trail)
                      ++ ("<"%char :: ($"/" ++ tag) ++ [">"%char])).
      { cbn [core]. unfold close_tag. cbn [lit String.list_ascii_of_string].
        by norm_app. }
      rewrite E. apply tagged_app; [|by apply tagged_one].
      apply tagged_snoc_text; [| | by apply blank_no_lt].
      - apply Hforest; [by apply tagged_one | done].
      - done. }
    split; [done |]. intros p Hp Hne. unfold render. cbn [lead_of].
    rewrite app_assoc. apply tagged_app; [|done].
    apply tagged_snoc_text; [done | done | by apply blank_no_lt].
Qed.

(** *** One round of the parser on an element *)

Lemma gtv_strip (s : str) :
  _get_tag_value s 0 = _get_tag_value (Py.strip s) 0.
Proof. unfold _get_tag_value. by rewrite strip_idemp. Qed.

Lemma startswith_other_head (c c0 : ascii) (x p : str) :
  c0 <> c -> Py.startswith (c :: x) (c0 :: p) = false.
Proof.
  intros Hne. cbn [Py.startswith].
  by apply Ascii.eqb_neq in Hne as ->.
Qed.

(** Text without [<] is a value, not a tag. *)
Lemma gtv_text (v : str) :
  "<"%char ∉ v -> _get_tag_value v 0 = ([], Py.strip v, []).
Proof.
  intros Hv%strip_no_lt. unfold _get_tag_value, skip_decl.
  destruct (Py.strip v) as [|c x]; [reflexivity |].
  apply not_elem_of_cons in Hv as [Hc _].
  change (drop 0 (c :: x)) with (c :: x).
  change ($"<?") with ("<"%char :: $"?").
  change ($"</") with ("<"%char :: $"/").
  change ($"<") with ("<"%char :: []).
  rewrite (startswith_other_head c "<" x $"?") by done. cbv iota.
  change (drop 0 (c :: x)) with (c :: x).
  rewrite !(startswith_other_head c "<") by done.
  reflexivity.
Qed.

(** What may follow an element: nothing, or white space and more elements. *)
Definition forest_like (r : str) : Prop :=
  r = [] \/ exists ws x, blank ws = true /\ bracketed x /\ r = ws ++ x.

Lemma render_forest_shape (es : list elem) :
  Forall (fun e => well_formed e = true) es -> es <> [] ->
  exists ws x, blank ws = true /\ bracketed x /\ render_forest es = ws ++ x.
Proof.
  induction es as [|e es IH]; [done |]. intros [Hwf Hes]%Forall_cons _.
  exists (lead_of e). destruct es as [|e' es].
  - exists (core e). split; [by apply well_formed_lead |].
    split; [apply core_bracketed |].
    unfold render_forest, render. cbn [map concat]. by rewrite app_nil_r.
  - destruct (IH Hes ltac:(done)) as (ws & x & Hws & Hx & E).
    exists (core e ++ ws ++ x). split; [by apply well_formed_lead |].
    split; [apply bracketed_app; [apply core_bracketed | done] |].
    change (render_forest (e :: e' :: es))
      with (render e ++ render_forest (e' :: es)).
    rewrite E. unfold render. by norm_app.
Qed.

Lemma render_forest_like (es : list elem) :
  Forall (fun e => well_formed e = true) es -> forest_like (render_forest es).
Proof.
  intros Hes. destruct es as [|e es]; [by left |]. right.
  by apply render_forest_shape.
Qed.

Lemma core_forest_bracketed (e : elem) (r : str) :
  forest_like r -> bracketed (core e ++ r).
Proof.
  intros [-> | (ws & x & _ & Hx & ->)].
  - rewrite app_nil_r. apply core_bracketed.
  - apply bracketed_app; [apply core_bracketed | done].
Qed.

Lemma strip_render (e : elem) (r : str) :
  well_formed e = true -> forest_like r ->
  Py.strip (render e ++ r) = core e ++ r.
Proof.
  intros Hwf Hr. unfold render. rewrite <- app_assoc.
  rewrite <- (app_nil_r (core e ++ r)) at 1.
  apply strip_bracketed; [by apply well_formed_lead | done |].
  by apply core_forest_bracketed.
Qed.

Definition attrs_of (e : elem) : str :=
  match e with
  | Text _ _ attrs _ => attrs
  | Node _ _ attrs _ _ => attrs
  end.

Lemma core_app (e : elem) (r : str) :
  core e ++ r = elem_text (tag_of e) (attrs_of e) (body_of e) r.
Proof.
  destruct e as [lead tag attrs text | lead tag attrs kids trail];
    unfold elem_text; cbn [core tag_of body_of attrs_of lit String.list_ascii_of_string];
    unfold render_forest, render; by norm_app.
Qed.

(** The body of a well-formed element: text without [<], then tags among
    which the closing tag of the element is not. *)
Lemma body_split (e : elem) :
  well_formed e = true ->
  is_name (tag_of e) = true /\ attrs_ok (attrs_of e) = true
  /\ exists t0 s, body_of e = t0 ++ s /\ "<"%char ∉ t0
                  /\ tagged ($"/" ++ tag_of e) s.
Proof.
  destruct e as [lead tag attrs text | lead tag attrs kids trail]; intros Hwf.
  - apply well_formed_text in Hwf as (Hlead & Hname & Hattrs & Htext).
    split; [done |]. split; [done |]. exists text, [].
    cbn [body_of]. rewrite app_nil_r. split; [done |]. split; [done |].
    apply tagged_nil.
  - apply well_formed_node in Hwf
      as (Hlead & Hname & Hattrs & Htrail & Hkids & Hwfk & Hnest).
    split; [done |]. split; [done |]. cbn [body_of tag_of].
    destruct kids as [|k kids]; [done |].
    apply Forall_cons in Hwfk as [Hwf1 Hwf2].
    cbn [map concat] in Hnest. apply not_elem_of_app in Hnest as [Hn1 Hn2].
    exists (lead_of k), (core k ++ render_forest kids ++ trail).
    split; [unfold render_forest, render; cbn [map concat]; by norm_app |].
    split; [by apply blank_no_lt, well_formed_lead |].
    rewrite app_assoc. apply tagged_snoc_text.
    + assert (Hf : forall p, tagged ($"/" ++ tag) p -> p <> [] ->
                     tagged ($"/" ++ tag) (p ++ render_forest kids)).
      { clear Hkids. induction kids as [|k' kids IHk]; intros p Hp Hne.
        - unfold render_forest. cbn [map concat]. by rewrite app_nil_r.
        - change (render_forest (k' :: kids))
            with (render k' ++ render_forest kids).
          apply Forall_cons in Hwf2 as [Hwf' Hwf2].
          cbn [map concat] in Hn2. apply not_elem_of_app in Hn2 as [Hn' Hn2].
          rewrite app_assoc. apply IHk; try done.
          + by apply (render_tagged tag k' Hwf' Hn').
          + by destruct p. }
      apply Hf; [by apply (render_tagged tag k Hwf1 Hn1) |].
      apply bracketed_nonempty, core_bracketed.
    + intros H%app_eq_nil. destruct H as [H _].
      by apply (bracketed_nonempty _ (core_bracketed k)).
    + by apply blank_no_lt.
Qed.

(** [_get_tag_value] on the text of a well-formed element and what follows
    it: the name, what is between the tags, and what follows. *)
Lemma gtv_core (e : elem) (r : str) :
  well_formed e = true -> forest_like r ->
  _get_tag_value (core e ++ r) 0 = (tag_of e, body_of e, r).
Proof.
  intros Hwf Hr.
  destruct (body_split e Hwf) as (Hname & Hattrs & t0 & s & Hbody & Ht0 & Hs).
  pose proof (strip_bracketed_id _ (core_forest_bracketed e r Hr)) as Hstrip.
  rewrite core_app in *. rewrite Hbody in *.
  by apply gtv_elem.
Qed.

Lemma xml2dict_loop_strip (s : str) (d : dict) :
  Py.strip s <> [] -> xml2dict_loop s d = xml2dict_loop (Py.strip s) d.
Proof.
  intros Hne. destruct s as [|c s]; [done |].
  destruct (Py.strip (c :: s)) as [|c' s'] eqn:E; [done |].
  destruct (_get_tag_value (c :: s) 0) as [[tag value] rest] eqn:Hg.
  rewrite (xml2dict_loop_cons c s d tag value rest Hg).
  rewrite gtv_strip, E in Hg.
  by rewrite (xml2dict_loop_cons c' s' d tag value rest Hg).
Qed.

Lemma dict_touch_idemp (tag : str) (d : dict) :
  dict_touch tag (dict_touch tag d) = dict_touch tag d.
Proof.
  unfold dict_touch. destruct (d !! tag) eqn:E.
  - by rewrite E.
  - by rewrite lookup_insert_eq.
Qed.

(** One round on a well-formed element adds what [expected] says. *)
Lemma xml2dict_loop_elem (e : elem) :
  well_formed e = true ->
  forall r d, forest_like r ->
    xml2dict_loop (render e ++ r) d = xml2dict_loop r (add_elem d e).
Proof.
  induction e as [lead tag attrs text | lead tag attrs kids trail IH]
    using elem_nested_ind; intros Hwf r d Hr.
  - rewrite xml2dict_loop_strip; rewrite (strip_render _ _ Hwf Hr);
      [|by apply bracketed_nonempty, core_forest_bracketed].
    pose proof (gtv_core _ r Hwf Hr) as Hg.
    destruct (core (Text lead tag attrs text) ++ r) as [|c x] eqn:E.
    { by apply (bracketed_nonempty _ (core_forest_bracketed _ r Hr)) in E. }
    rewrite (xml2dict_loop_cons c x d _ _ _ Hg). cbv zeta.
    apply well_formed_text in Hwf as (Hlead & Hname & Hattrs & Htext).
    cbn [body_of tag_of]. rewrite (gtv_text (Py.strip text)) by by apply strip_no_lt.
    cbn [fst]. unfold add_elem. cbn [expected tag_of].
    by destruct (Py.strip text).
  - rewrite xml2dict_loop_strip; rewrite (strip_render _ _ Hwf Hr);
      [|by apply bracketed_nonempty, core_forest_bracketed].
    pose proof (gtv_core _ r Hwf Hr) as Hg.
    destruct (core (Node lead tag attrs kids trail) ++ r) as [|c x] eqn:E.
    { by apply (bracketed_nonempty _ (core_forest_bracketed _ r Hr)) in E. }
    rewrite (xml2dict_loop_cons c x d _ _ _ Hg). cbv zeta.
    apply well_formed_node in Hwf
      as (Hlead & Hname & Hattrs & Htrail & Hkids & Hwfk & Hnest).
    cbn [body_of tag_of].
    destruct (render_forest_shape kids Hwfk Hkids) as (ws & b & Hws & Hb & Ek).
    assert (Hv : Py.strip (render_forest kids ++ trail) = b).
    { rewrite Ek, <- app_assoc. by apply strip_bracketed. }
    rewrite Hv.
    assert (Hfirst : (_get_tag_value b 0).1.1 <> []).
    { destruct kids as [|k kids]; [done |].
      apply Forall_cons in Hwfk as [Hwf1 Hwf2].
      assert (b = core k ++ render_forest kids) as ->.
      { rewrite <- (strip_render k (render_forest kids) Hwf1)
          by by apply render_forest_like.
        change (render k ++ render_forest kids) with (render_forest (k :: kids)).
        rewrite Ek. rewrite <- (app_nil_r (ws ++ b)), <- app_assoc.
        by rewrite strip_bracketed. }
      rewrite (gtv_core k _ Hwf1) by by apply render_forest_like.
      cbn [fst]. destruct (body_split k Hwf1) as (Hn & _).
      by destruct (tag_of k). }
    destruct ((_get_tag_value b 0).1.1) as [|c0 t0] eqn:E0; [done |].
    rewrite dict_touch_idemp.
    assert (Hloop : forall es, Forall (fun e => well_formed e = true) es ->
              Forall (fun e => well_formed e = true ->
                        forall r d, forest_like r ->
                          xml2dict_loop (render e ++ r) d
                          = xml2dict_loop r (add_elem d e)) es ->
              forall d, xml2dict_loop (render_forest es) d = expected_dict es d).
    { clear. induction es as [|e es IHes]; intros Hwf HP d.
      - unfold render_forest, expected_dict. cbn [map concat fold_left].
        by simp xml2dict_loop.
      - apply Forall_cons in Hwf as [Hwf1 Hwf2].
        apply Forall_cons in HP as [HP1 HP2].
        change (render_forest (e :: es)) with (render e ++ render_forest es).
        rewrite (HP1 Hwf1) by by apply render_forest_like.
        unfold expected_dict. cbn [fold_left]. by apply IHes. }
    assert (Hb' : Py.strip (render_forest kids) = b).
    { rewrite Ek, <- (app_nil_r (ws ++ b)), <- app_assoc.
      by rewrite strip_bracketed. }
    assert (Hkids' : xml2dict_loop b ∅ = expected_dict kids ∅).
    { rewrite <- (Hloop kids Hwfk IH ∅).
      rewrite (xml2dict_loop_strip (render_forest kids)); rewrite Hb';
        [done | by apply bracketed_nonempty]. }
    rewrite Hkids'. reflexivity.
Qed.

(** The parser on a sequence of well-formed elements. *)
Lemma xml2dict_loop_forest (es : list elem) (d : dict) :
  Forall (fun e => well_formed e = true) es ->
  xml2dict_loop (render_forest es) d = expected_dict es d.
Proof.
  revert d. induction es as [|e es IH]; intros d Hwf.
  - unfold render_forest, expected_dict. cbn [map concat fold_left].
    by simp xml2dict_loop.
  - apply Forall_cons in Hwf as [Hwf1 Hwf2].
    change (render_forest (e :: es)) with (render e ++ render_forest es).
    rewrite (xml2dict_loop_elem e Hwf1) by by apply render_forest_like.
    unfold expected_dict. cbn [fold_left]. by apply IH.
Qed.

(** *** The dictionary of a sequence of elements *)






(** *** Paths *)

Lemma split_no_sep (sep : ascii) (l : str) :
  sep ∉ l -> Py.split sep l = [l].
Proof.
  induction l as [|c l IH]; [done |].
  intros [Hc Hl]%not_elem_of_cons. cbn [Py.split].
  assert (E : Ascii.eqb c sep = false) by (apply Ascii.eqb_neq; congruence).
  by rewrite E, IH.
Qed.



Lemma segment_plain (t : str) :
  "@"%char ∉ t -> segment_tag t = t /\ segment_attr t = [].
Proof.
  intros Ht. unfold segment_tag, segment_attr.
  by rewrite split_no_sep.
Qed.





(** *** The declaration before the first element *)








(** *** Claim C1 *)




(** *** Claim C9 *)

(** A closing tag that stands alone is read as a tag without a value. *)
Lemma gtv_stray_close (t : str) :
  is_name t = true -> _get_tag_value (close_tag t) 0 = (t, [], []).
Proof.
  intros Hname.
  pose proof (name_chars t " " Hname ltac:(set_solver)) as Hsp.
  pose proof (name_chars t ">" Hname ltac:(set_solver)) as Hgt.
  assert (E : close_tag t = "<"%char :: "/"%char :: t ++ [">"%char]) by done.
  assert (Hb : bracketed (close_tag t)).
  { exists ("/"%char :: t). by rewrite E. }
  unfold _get_tag_value, skip_decl. rewrite (strip_bracketed_id _ Hb), E.
  change (drop 0 ("<"%char :: "/"%char :: t ++ [">"%char]))
    with ("<"%char :: "/"%char :: t ++ [">"%char]).
  change ($"<?") with ["<"%char; "?"%char].
  change ($"</") with ["<"%char; "/"%char].
  rewrite !startswith_two. cbn [Ascii.eqb Bool.eqb andb].
  change (drop (0 + 2) ("<"%char :: "/"%char :: t ++ [">"%char]))
    with (t ++ [">"%char]).
  rewrite read_tag_name by done. cbn [read_tag Ascii.eqb Bool.eqb fst snd app].
  rewrite names_strip by done. f_equal.
  apply drop_ge. cbn [length]. rewrite length_app. cbn [length]. lia.
Qed.

Lemma xml2dict_stray_close (t : str) :
  is_name t = true -> _xml2dict (close_tag t) false = Dict (<[t := []]> ∅).
Proof.
  intros Hname. unfold _xml2dict. f_equal.
  pose proof (gtv_stray_close t Hname) as Hg.
  assert (E : close_tag t = "<"%char :: "/"%char :: t ++ [">"%char]) by done.
  rewrite E in *.
  rewrite (xml2dict_loop_cons _ _ ∅ _ _ _ Hg). cbv zeta.
  rewrite strip_nil. change ((_get_tag_value [] 0).1.1) with (@nil ascii).
  cbv iota. by simp xml2dict_loop.
Qed.

Lemma xml2dict_blank_element (t ws : str) :
  is_name t = true -> blank ws = true ->
  _xml2dict ($"<" ++ t ++ $">" ++ ws ++ close_tag t) false
  = Dict (<[t := []]> ∅).
Proof.
  intros Hname Hws. unfold _xml2dict. f_equal.
  assert (Hwf : well_formed (Text [] t [] ws) = true).
  { cbn [well_formed blank forallb attrs_ok andb]. rewrite Hname.
    cbn [andb]. apply negb_true_iff, bool_decide_eq_false.
    by apply blank_no_lt. }
  assert (E : $"<" ++ t ++ $">" ++ ws ++ close_tag t
              = render_forest [Text [] t [] ws]).
  { unfold render_forest, render. cbn [map concat lead_of core app].
    by rewrite !app_nil_r. }
  rewrite E, xml2dict_loop_forest by (by apply Forall_cons_2).
  unfold expected_dict, add_elem. cbn [fold_left expected tag_of].
  by rewrite strip_blank.
Qed.

(** C9: [_xpath] raises [IndexError] where a segment without a filter names
    a tag whose list of children is empty, and the parser builds such lists:
    for an element with empty or blank content and for a closing tag that
    stands alone. *)
Theorem c9_empty_child_sequence_raises (t ws : str) :
  is_name t = true -> blank ws = true ->
  _xml2dict ($"<" ++ t ++ $">" ++ ws ++ close_tag t) false
  = Dict (<[t := []]> ∅)
  /\ _xml2dict (close_tag t) false = Dict (<[t := []]> ∅)
  /\ _xpath (Dict (<[t := []]> ∅)) t = Raise IndexError
  /\ forall (d : node) (path : str) (pre post : list str) (p : str) (m : dict),
       Py.split "/" path = pre ++ p :: post ->
       xpath_loop d pre = Ok (Some (Dict m)) ->
       segment_attr p = [] ->
       m !! segment_tag p = Some [] ->
       _xpath d path = Raise IndexError.
Proof.
  intros Hname Hws.
  split; [by apply xml2dict_blank_element |].
  split; [by apply xml2dict_stray_close |].
  assert (Hgen : forall (d : node) (path : str) (pre post : list str) (p : str)
                   (m : dict),
             Py.split "/" path = pre ++ p :: post ->
             xpath_loop d pre = Ok (Some (Dict m)) ->
             segment_attr p = [] ->
             m !! segment_tag p = Some [] ->
             _xpath d path = Raise IndexError).
  { intros d path pre post p m Hsplit Hpre Hattr Hm.
    unfold _xpath. rewrite Hsplit, xpath_loop_app, Hpre. cbn [bind xpath_loop].
    by rewrite (xpath_step_unfiltered_empty m p Hattr Hm). }
  split; [|exact Hgen].
  pose proof (name_chars t "/" Hname ltac:(set_solver)) as Hsl.
  pose proof (name_chars t "@" Hname ltac:(set_solver)) as Hat.
  destruct (segment_plain t Hat) as [Htag Hattr].
  apply (Hgen _ t [] [] t (<[t := []]> ∅)).
  - by apply split_no_sep.
  - reflexivity.
  - done.
  - rewrite Htag. apply lookup_insert_eq.
Qed.

Lemma c9_empty_child_sequence_raises_witness :
  _xpath (_xml2dict $"<a><c> </c></a>" false) $"a/c" = Raise IndexError
  /\ _xpath (_xml2dict $"</c>" false) $"c" = Raise IndexError.
Proof.
  pose proof (c9_empty_child_sequence_raises $"c" $" "
                ltac:(vm_compute; reflexivity) ltac:(vm_compute; reflexivity))
    as (_ & Hclose & Hraise & Hgen).
  split.
  - apply (Hgen _ _ [$"a"] [] $"c" (<[$"c" := []]> ∅));
      vm_compute; reflexivity.
  - change ($"</c>") with (close_tag $"c"). rewrite Hclose. exact Hraise.
Defined.

(** * More of the parser *)

(** ** Text that is not XML *)

Lemma xml2dict_loop_text (s : str) (d : dict) :
  s <> [] -> "<"%char ∉ s ->
  xml2dict_loop s d
  = match Py.strip s with
    | [] => dict_touch [] d
    | _ :: _ => dict_append [] (Leaf (Py.strip s)) (dict_touch [] d)
    end.
Proof.
  intros Hne Hs. destruct s as [|c s]; [done |].
  rewrite (xml2dict_loop_cons c s d _ _ _ (gtv_text (c :: s) Hs)). cbv zeta.
  rewrite strip_idemp.
  rewrite (gtv_text (Py.strip (c :: s))) by by apply strip_no_lt.
  cbn [fst]. rewrite strip_idemp.
  destruct (Py.strip (c :: s)); by simp xml2dict_loop.
Qed.

(** X1: a text without any [<] is not refused: the parser files it, trimmed,
    under the empty key; when it is blank the empty key holds an empty
    list. *)
Theorem xml2dict_text_goes_under_empty_key (s : str) :
  s <> [] -> "<"%char ∉ s ->
  _xml2dict s false
  = Dict (<[ [] := match Py.strip s with
                   | [] => []
                   | _ :: _ => [Leaf (Py.strip s)]
                   end ]> ∅).
Proof.
  intros Hne Hs. unfold _xml2dict. f_equal.
  rewrite xml2dict_loop_text by done.
  unfold dict_touch, dict_append. rewrite lookup_empty.
  destruct (Py.strip s); [done |].
  apply map_eq. intros k. destruct (decide (k = [])) as [-> | Hk].
  - by rewrite lookup_alter_eq, !lookup_insert_eq.
  - by rewrite lookup_alter_ne, !lookup_insert_ne.
Qed.

Lemma xml2dict_text_goes_under_empty_key_witness :
  _xml2dict $" hello " false = Dict (<[ [] := [Leaf $"hello"] ]> ∅).
Proof.
  apply (xml2dict_text_goes_under_empty_key $" hello ").
  - discriminate.
  - apply (bool_decide_unpack _). vm_compute. exact I.
Defined.

(** ** Children of the same name *)








(** * More of the path evaluator *)

(** X3: a segment whose tag is not a key of the current dictionary ends the
    evaluation with [None], whatever follows it in the path: nothing is
    raised for the segments after it. *)
Theorem xpath_missing_tag_gives_none
    (d : node) (path : str) (pre post : list str) (p : str) (m : dict) :
  Py.split "/" path = pre ++ p :: post ->
  xpath_loop d pre = Ok (Some (Dict m)) ->
  m !! segment_tag p = None ->
  _xpath d path = Ok None.
Proof.
  intros Hsplit Hpre Hm. unfold _xpath.
  rewrite Hsplit, xpath_loop_app, Hpre. cbn [bind xpath_loop].
  unfold xpath_step, py_in. by rewrite Hm.
Qed.

Lemma xpath_missing_tag_gives_none_witness :
  _xpath (_xml2dict $"<a><b>x</b></a>" false) $"a/c/d@e" = Ok None.
Proof.
  apply (xpath_missing_tag_gives_none _ _ [$"a"] [$"d@e"] $"c"
           {[ $"b" := [Leaf $"x"] ]}).
  - vm_compute. reflexivity.
  - vm_compute. reflexivity.
  - vm_compute. reflexivity.
Defined.

(** X4: a path that goes on below a leaf. The current node is then a string,
    [tag not in d] is a substring test and [d[tag]] an index into a string:
    a segment without filter gives [None] when its tag does not occur in the
    text of the leaf and raises [TypeError] when it does. *)
Theorem xpath_below_leaf (s p : str) (ps : list str) :
  segment_attr p = [] ->
  xpath_loop (Leaf s) (p :: ps)
  = if Py.contains s (segment_tag p) then Raise TypeError else Ok None.
Proof.
  intros Hattr. cbn [xpath_loop]. unfold xpath_step, py_in, getitem.
  rewrite Hattr. by destruct (Py.contains s (segment_tag p)).
Qed.

Lemma xpath_below_leaf_witness :
  xpath_loop (Leaf $"xyz") [$"y"] = Raise TypeError
  /\ xpath_loop (Leaf $"xyz") [$"b"; $"c"] = Ok None.
Proof.
  split.
  - apply (xpath_below_leaf $"xyz" $"y" []). reflexivity.
  - apply (xpath_below_leaf $"xyz" $"b" [$"c"]). reflexivity.
Defined.

(** * More of [_send_tcp] and [_send_udp] *)

(** X5: when [socket.socket] raises in [_send_tcp], the name [sock] is not
    bound when the [finally] clause runs: the call does not return the empty
    answer but raises [UnboundLocalError], and the error of the socket is
    lost. *)
Theorem send_tcp_without_socket_raises
    (bytes_decode : bytes -> outcome str) (net : tcp_session)
    (to : str * option Z) (payload : str) (st : tcp_state) (e : exn) :
  tcp_socket net = Raise e ->
  sock_bound st = false ->
  _send_tcp bytes_decode net to payload st = (Raise UnboundLocalError, st).
Proof.
  intros Hsock Hbound. unfold _send_tcp, send_tcp_try.
  rewrite Hsock. by rewrite Hbound.
Qed.

Lemma send_tcp_without_socket_raises_witness :
  _send_tcp (fun _ => Ok []) 
    {| tcp_socket := Raise OSError; tcp_connect := Ok tt;
       tcp_sendall := Ok tt; tcp_recv := Ok [] |}
    ($"10.0.0.5", Some 80%Z) [] tcp_start
  = (Raise UnboundLocalError, tcp_start).
Proof.
  apply (send_tcp_without_socket_raises (fun _ => Ok []) _ _ _ _ OSError).
  - reflexivity.
  - reflexivity.
Defined.

Section UdpFacts.

Variable bytes_decode : bytes -> outcome str.
Variable urlopen_read : str -> outcome str.
Variable inline_flag_accepted : bool.
Variable __file__ : str.

(** X6: when [sendto] raises in [_send_udp], [discover] raises that error
    without running its loop; the socket that was created stays open,
    nothing is recorded as sent and [self.devices] is as it was. When the
    socket cannot be created the state is as it was. *)
Theorem discover_send_failure (name0 ip0 : str) (st : str -> str) (mx v : Z)
    (events : list loop_event) (c : cli) (e : exn) :
  let run := discover bytes_decode urlopen_read inline_flag_accepted __file__ in
  run (Ok tt) (Raise e) name0 ip0 st mx v events c
  = (Raise e, with_socket SocketOpen c)
  /\ run (Raise e) (Ok tt) name0 ip0 st mx v events c = (Raise e, c).
Proof. by split. Qed.

(** X7: a [KeyboardInterrupt] in the loop of [discover] is caught: when
    the rounds before it went without an exception and without the break of
    the search by ip, the call returns [None], the socket is closed, the
    devices found in those rounds are kept and what would have come after
    the interrupt is not looked at. *)
Theorem discover_interrupt_ends_call (name0 ip0 : str) (st : str -> str)
    (mx v : Z) (pre post : list loop_event) (c c1 : cli) :
  discover_loop bytes_decode urlopen_read inline_flag_accepted name0 ip0 v pre
    (with_sent (udp_sent c ++ [(SSDP_GROUP, search_payload __file__ st mx v)])
       (with_socket SocketOpen c))
  = (AtDeadline, c1) ->
  discover bytes_decode urlopen_read inline_flag_accepted __file__
    (Ok tt) (Ok tt) name0 ip0 st mx v (pre ++ EvInterrupt :: post) c
  = (Ok PyNone, with_socket SocketClosed c1).
Proof.
  intros Hpre. unfold discover, with_cm, _send_udp.
  cbn [up_to_yield after_yield].
  pose proof (loop_app bytes_decode urlopen_read inline_flag_accepted
                name0 ip0 v pre (EvInterrupt :: post)
                (with_sent (udp_sent c ++ [(SSDP_GROUP,
                                            search_payload __file__ st mx v)])
                   (with_socket SocketOpen c))) as Happ.
  cbv zeta in Happ. rewrite Happ, Hpre. reflexivity.
Qed.

End UdpFacts.

Lemma discover_interrupt_ends_call_witness :
  let decode := fun _ : bytes => Raise UnicodeDecodeError in
  let urlopen := fun _ : str => Raise OSError in
  let c0 := {| devices := []; printed := []; udp_socket := NoSocket;
               udp_sent := [] |} in
  exists c1,
    discover decode urlopen true $"dlnap.py" (Ok tt) (Ok tt) [] []
      (fun _ => SSDP_ALL) 3 1
      ([EvIdle; EvReadable [] $"10.0.0.5"]
         ++ EvInterrupt :: [EvReadable [] $"10.0.0.6"]) c0
    = (Ok PyNone, with_socket SocketClosed c1)
    /\ length (devices c1) = 1.
Proof.
  intros decode urlopen c0. eexists. split.
  - apply (discover_interrupt_ends_call decode urlopen true $"dlnap.py" [] []
             (fun _ => SSDP_ALL) 3 1 [EvIdle; EvReadable [] $"10.0.0.5"]
             [EvReadable [] $"10.0.0.6"] c0).
    reflexivity.
  - reflexivity.
Defined.
